(** * go-kzg-4844: the KZG core, embedded from the Go sources

    Shallow embedding of
      - [internal/kzg/domain.go]   (Domain, NewDomain, bitReverse, Lagrange evaluation),
      - [internal/multiexp/multiexp.go] (MultiExp),
      - [serialisation.go]         (scalar, polynomial and commitment decoding),
      - the trusted-setup file of package [api] (CheckTrustedSetupWellFormed).

    Conventions.
      - A Go [uint64] or [int] is a [Z]; every conversion and wrap-around
        the source performs is written out.
      - A slice is a [list]; an index expression is bounds-checked and
        panics out of range, as the Go runtime does.
      - A Go function that returns [(T, error)] or may panic returns a
        [result T]; where the source returns a pair whose first component
        matters on failure, the pair itself is modelled.
      - [fr.Element] is the canonical representative in [0, q) of a residue
        modulo the BLS12-381 scalar-field modulus [q]; the operations of
        gnark-crypto are modelled by their contract. *)

From Stdlib Require Import ZArith Lia Zpow_facts String Ascii.
From Stdlib Require Import Strings.Byte.
From stdpp Require Import base list.

Local Open Scope Z_scope.

(** ** Go runtime: results, panics, slices, [math/bits] *)

Inductive error : Type :=
| ErrPolynomialMismatchedSizeDomain
| ErrScalarsPointsLength        (* "number of scalars != number of points" *)
| ErrScalarNotCanonical         (* "scalar is not in canonical format" *)
| errLagrangeMonomialLengthMismatch
| ErrUnexpectedLagrangeSetup    (* "unexpected lagrange setup being used" *)
| ErrHexInvalidByte (c : ascii) (* encoding/hex: InvalidByteError *)
| ErrHexLength                  (* encoding/hex: ErrLength *)
| ErrCurve (code : nat).        (* an error value of the curve library *)

Inductive result (A : Type) : Type :=
| Ok (a : A)
| Err (e : error)
| Panic (msg : string).
Arguments Ok {A} a.
Arguments Err {A} e.
Arguments Panic {A} msg.

Definition bind {A B} (m : result A) (k : A -> result B) : result B :=
  match m with
  | Ok a => k a
  | Err e => Err e
  | Panic s => Panic s
  end.

Notation "'let*' x ':=' m 'in' k" := (bind m (fun x => k))
  (at level 10, x name, m at level 100, k at level 200).

Definition index_out_of_range : string := "index out of range".

(** [l[i]] for a non-negative index. *)
Definition index {A} (l : list A) (i : nat) : result A :=
  match l !! i with
  | Some a => Ok a
  | None => Panic index_out_of_range
  end.

(** [l[i]] for an index held in a Go [int]. *)
Definition indexZ {A} (l : list A) (i : Z) : result A :=
  if i <? 0 then Panic index_out_of_range else index l (Z.to_nat i).

(** [l[i] = v]. *)
Definition store {A} (l : list A) (i : nat) (v : A) : result (list A) :=
  if decide (i < length l)%nat then Ok (<[i := v]> l) else Panic index_out_of_range.

(** [for i := start; i < start + n; i++ { s = body i s }] where the body
    may return early with an error or panic. *)
Fixpoint for_range {St} (start n : nat) (body : nat -> St -> result St) (s : St)
  : result St :=
  match n with
  | O => Ok s
  | S n' => let* s' := body start s in for_range (S start) n' body s'
  end.

Definition two64 : Z := 2 ^ 64.
Definition two63 : Z := 2 ^ 63.

(** [int(x)] and [int64(x)] for [x : uint64] (two's complement). *)
Definition int_of_uint64 (x : Z) : Z := if x <? two63 then x else x - two64.

(** [make([]T, n)] with [n] a [uint64]: the runtime refuses a length that
    does not fit an [int]. *)
Definition make {A} (zero : A) (n : Z) : result (list A) :=
  if n <? two63 then Ok (replicate (Z.to_nat n) zero)
  else Panic "makeslice: len out of range".

Module bits.

Fixpoint pos_ones (p : positive) : nat :=
  match p with
  | xH => 1
  | xO p' => pos_ones p'
  | xI p' => S (pos_ones p')
  end.

(** [bits.OnesCount64] *)
Definition OnesCount64 (x : Z) : Z :=
  match x with
  | Zpos p => Z.of_nat (pos_ones p)
  | _ => 0
  end.

(** [bits.Len64]: the number of bits needed to write [x]. *)
Definition Len64 (x : Z) : Z :=
  match x with
  | Zpos p => Z.log2 x + 1
  | _ => 0
  end.

(** [bits.LeadingZeros64] *)
Definition LeadingZeros64 (x : Z) : Z := 64 - Len64 x.

Fixpoint pos_tz (p : positive) : nat :=
  match p with
  | xO p' => S (pos_tz p')
  | _ => O
  end.

(** [bits.TrailingZeros64]; 64 for 0. *)
Definition TrailingZeros64 (x : Z) : Z :=
  match x with
  | Zpos p => Z.of_nat (pos_tz p)
  | _ => 64
  end.

(** The low [w] bits of [x] in reverse order. *)
Fixpoint reverse_bits (w : nat) (x : Z) : Z :=
  match w with
  | O => 0
  | S w' => (x mod 2) * 2 ^ Z.of_nat w' + reverse_bits w' (x / 2)
  end.

(** [bits.Reverse64] *)
Definition Reverse64 (x : Z) : Z := reverse_bits 64 x.

End bits.

(** [x >> s] on [uint64] with an unsigned shift count: a count of 64 or
    more gives 0. *)
Definition shr64 (x s : Z) : Z := if 64 <=? s then 0 else Z.shiftr x s.

(** [x << s] on [uint64]. *)
Definition shl64 (x s : Z) : Z := if 64 <=? s then 0 else Z.shiftl x s mod two64.

(** ** gnark-crypto [ecc] and [fr] (external library, modelled by contract) *)

Module ecc.

(** [ecc.NextPowerOfTwo]:
    c := bits.OnesCount64(n); 0 -> 1; 1 -> n;
    t := bits.LeadingZeros64(n); t == 0 -> panic; 1 << (64 - t). *)
Definition NextPowerOfTwo (n : Z) : result Z :=
  let c := bits.OnesCount64 n in
  if c =? 0 then Ok 1
  else if c =? 1 then Ok n
  else
    let t := bits.LeadingZeros64 n in
    if t =? 0 then Panic "next power of 2 overflows uint64"
    else Ok (shl64 1 (64 - t)).

End ecc.

Module fr.

(** The order of the BLS12-381 scalar field. *)
Definition Modulus : Z :=
  52435875175126190479447740508185965837690552500527637822603658699938581184513.

Definition Element : Type := Z.

(** The zero value of [fr.Element]. *)
Definition Zero : Element := 0.
Definition One : Element := 1.

Definition Add (a b : Element) : Element := (a + b) mod Modulus.
Definition Sub (a b : Element) : Element := (a - b) mod Modulus.
Definition Mul (a b : Element) : Element := (a * b) mod Modulus.
Definition Equal (a b : Element) : bool := a =? b.
Definition SetUint64 (v : Z) : Element := v mod Modulus.

(** [z.Inverse(x)]: [1/x], and 0 for 0 (Fermat's little theorem). *)
Definition Inverse (x : Element) : Element := Zpow_mod x (Modulus - 2) Modulus.

(** [z.Exp(x, k)] for a [big.Int] exponent; a negative exponent inverts
    the base first. *)
Definition Exp (x : Element) (k : Z) : Element :=
  if k <? 0 then Zpow_mod (Inverse x) (- k) Modulus else Zpow_mod x k Modulus.

(** [fr.BatchInvert]: the inverse of every entry, zeroes staying zero. *)
Definition BatchInvert (a : list Element) : list Element := Inverse <$> a.

(** Division and finite sums, for stating formulas. *)
Definition Div (a b : Element) : Element := Mul a (Inverse b).
Definition Sum (l : list Element) : Element := foldr Add Zero l.

End fr.

(** ** Package [utils] (internal/utils) *)

Module utils.

(** Modelled from the spec: [utils.IsPowerOfTwo] is not among the
    sources; the spec lists it as the "power-of-two test" of FieldUtils. *)
Definition IsPowerOfTwo (value : Z) : bool :=
  (0 <? value) && (value =? 2 ^ Z.log2 value).

(** Modelled from the spec: [utils.ReverseArray] is not among the
    sources; the spec calls it the "canonical byte-order reversal". *)
Definition ReverseArray {K} (l : list K) : list K := reverse l.

(** The integer a byte string denotes in the field library's native
    big-endian representation. *)
Definition be_value (bs : list byte) : Z :=
  foldl (fun acc b => acc * 256 + Z.of_N (Byte.to_N b)) 0 bs.

(** Modelled from the spec: [utils.ReduceCanonical] is not among the
    sources; the spec describes it as the "canonical-reduction check":
    the scalar the bytes denote, and whether the integer value is below
    the field modulus. *)
Definition ReduceCanonical (serScalar : list byte) : fr.Element * bool :=
  let v := be_value serScalar in
  (v mod fr.Modulus, v <? fr.Modulus).

End utils.

(** ** Package [kzg] (internal/kzg/domain.go) *)

Module kzg.

Definition Polynomial : Type := list fr.Element.

Record Domain : Type := mkDomain {
  Cardinality : Z;                          (* uint64 *)
  CardinalityInv : fr.Element;
  Generator : fr.Element;
  GeneratorInv : fr.Element;
  Roots : list fr.Element;
  PreComputedInverses : list fr.Element
}.

Definition rootOfUnity : fr.Element :=
  10238227357739495823651030575849232062558860180284477541189508159991286009131.

Definition maxOrderRoot : Z := 32.

Definition NewDomain (m : Z) : result Domain :=
  let* x := ecc.NextPowerOfTwo m in
  let logx := bits.TrailingZeros64 x in
  if logx >? maxOrderRoot then
    Panic "m is too big: the required root of unity does not exist"
  else
    let expo := shl64 1 (maxOrderRoot - logx) in
    let generator := fr.Exp rootOfUnity (int_of_uint64 expo) in
    let generatorInv := fr.Inverse generator in
    let cardinalityInv := fr.Inverse (fr.SetUint64 x) in
    let* roots0 := make fr.Zero x in
    let* rc :=
      for_range 0 (Z.to_nat x)
        (fun i (st : list fr.Element * fr.Element) =>
           let* roots := store st.1 i st.2 in
           Ok (roots, fr.Mul st.2 generator))
        (roots0, fr.One) in
    let* inv0 := make fr.Zero x in
    let* invs :=
      for_range 0 (Z.to_nat x)
        (fun i invs => let* r := index rc.1 i in store invs i (fr.Inverse r))
        inv0 in
    Ok {| Cardinality := x;
          CardinalityInv := cardinalityInv;
          Generator := generator;
          GeneratorInv := generatorInv;
          Roots := rc.1;
          PreComputedInverses := invs |}.

(** [list[i], list[j] = list[j], list[i]] *)
Definition swap {K} (l : list K) (i j : nat) : result (list K) :=
  let* a := index l j in
  let* b := index l i in
  let* l1 := store l i a in
  store l1 j b.

Definition bitReverse {K} (lst : list K) : result (list K) :=
  let n := Z.of_nat (length lst) in
  if negb (utils.IsPowerOfTwo n) then
    Panic "size of list must be a power of two"
  else
    let nn := 64 - bits.TrailingZeros64 n in
    for_range 0 (Z.to_nat n)
      (fun i l =>
         let irev := shr64 (bits.Reverse64 (Z.of_nat i)) nn in
         if irev >? Z.of_nat i then swap l i (Z.to_nat irev) else Ok l)
      lst.

Definition ReverseRoots (d : Domain) : result Domain :=
  let* roots := bitReverse (Roots d) in
  let* invs := bitReverse (PreComputedInverses d) in
  Ok {| Cardinality := Cardinality d;
        CardinalityInv := CardinalityInv d;
        Generator := Generator d;
        GeneratorInv := GeneratorInv d;
        Roots := roots;
        PreComputedInverses := invs |}.

(** The loop of [findRootIndex], from index [i], [n] iterations left. *)
Fixpoint findRootIndex_loop (roots : list fr.Element) (point : fr.Element)
    (i n : nat) : result Z :=
  match n with
  | O => Ok (-1)
  | S n' =>
      let* r := index roots i in
      if fr.Equal point r then Ok (Z.of_nat i)
      else findRootIndex_loop roots point (S i) n'
  end.

Definition findRootIndex (d : Domain) (point : fr.Element) : result Z :=
  findRootIndex_loop (Roots d) point 0
    (Z.to_nat (int_of_uint64 (Cardinality d))).

Definition isInDomain (d : Domain) (point : fr.Element) : result bool :=
  let* i := findRootIndex d point in Ok (negb (i =? -1)).

(** result * (x^width - 1) * 1/width *)
Definition scale (d : Domain) (evalPoint result : fr.Element) : fr.Element :=
  let tmp := fr.Exp evalPoint (int_of_uint64 (Cardinality d)) in
  let tmp := fr.Sub tmp fr.One in
  let tmp := fr.Mul tmp (CardinalityInv d) in
  fr.Mul tmp result.

Definition evaluateLagrangePolynomial (domain : Domain) (poly : Polynomial)
    (evalPoint : fr.Element) : result (fr.Element * Z) :=
  if negb (Cardinality domain =? Z.of_nat (length poly)) then
    Err ErrPolynomialMismatchedSizeDomain
  else
    let* indexInDomain := findRootIndex domain evalPoint in
    if negb (indexInDomain =? -1) then
      let* v := indexZ poly indexInDomain in Ok (v, indexInDomain)
    else
      let* denom0 := make fr.Zero (Cardinality domain) in
      let* denom :=
        for_range 0 (length denom0)
          (fun i denom =>
             let* r := index (Roots domain) i in
             store denom i (fr.Sub evalPoint r))
          denom0 in
      let invDenom := fr.BatchInvert denom in
      let* result :=
        for_range 0 (Z.to_nat (int_of_uint64 (Cardinality domain)))
          (fun i result =>
             let* p := index poly i in
             let* r := index (Roots domain) i in
             let num := fr.Mul p r in
             let* inv := index invDenom i in
             let div := fr.Mul num inv in
             Ok (fr.Add result div))
          fr.Zero in
      Ok (scale domain evalPoint result, indexInDomain).

Definition EvaluateLagrangePolynomial (domain : Domain) (poly : Polynomial)
    (evalPoint : fr.Element) : result fr.Element :=
  let* r := evaluateLagrangePolynomial domain poly evalPoint in Ok r.1.

Definition EvaluateLagrangePolynomials (domain : Domain)
    (polys : list Polynomial) (evalPoints : list fr.Element)
    : result (list fr.Element) :=
  (* Figure out which polynomials are being evaluated in the domain *)
  let* indicesInDomain :=
    for_range 0 (length polys)
      (fun i ind =>
         let* z := index evalPoints i in
         let* k := findRootIndex domain z in
         store ind i k)
      (replicate (length polys) 0) in
  (* Figure out how many of the evaluations need an inversion *)
  let* numBatchInversionsNeeded :=
    for_range 0 (length indicesInDomain)
      (fun i num =>
         let* k := index indicesInDomain i in
         if k =? -1 then Ok (num + 1) else Ok num)
      0 in
  let* denom0 :=
    make fr.Zero ((Cardinality domain * numBatchInversionsNeeded) mod two64) in
  let* denom :=
    for_range 0 (length evalPoints)
      (fun polyOffset denom =>
         let* evalPoint := index evalPoints polyOffset in
         for_range 0 (Z.to_nat (int_of_uint64 (Cardinality domain)))
           (fun rootIndex denom =>
              let* r := index (Roots domain) rootIndex in
              store denom (polyOffset + rootIndex) (fr.Sub evalPoint r))
           denom)
      denom0 in
  let denom := fr.BatchInvert denom in
  (* Compute the output for each polynomial evaluation *)
  for_range 0 (length indicesInDomain)
    (fun i evaluations =>
       let* poly := index polys i in
       let* evalPoint := index evalPoints i in
       let* indexInDomain := index indicesInDomain i in
       if negb (indexInDomain =? -1) then
         let* v := indexZ poly indexInDomain in
         store evaluations i v
       else
         let* result :=
           for_range 0 (Z.to_nat (int_of_uint64 (Cardinality domain)))
             (fun rootIndex result =>
                let* p := index poly rootIndex in
                let* r := index (Roots domain) rootIndex in
                let num := fr.Mul p r in
                let* inv := index denom (rootIndex + i) in
                let div := fr.Mul num inv in
                Ok (fr.Add result div))
             fr.Zero in
         store evaluations i (scale domain evalPoint result))
    (replicate (length polys) fr.Zero).

End kzg.

(** ** gnark-crypto [bls12-381] (external library): the interface used *)

Module curve.

(** The operations of a point type ([G1Affine], [G2Affine]) that the
    sources call.  [zero] is the zero value of the struct, which encodes
    the point at infinity. *)
Class Ops (G : Type) : Type := {
  zero : G;
  add : G -> G -> G;
  ScalarMultiplication : fr.Element -> G -> G;
  (* p.SetBytes(buf), with curve and subgroup checks *)
  SetBytes : list byte -> result G;
  (* p.Bytes(), the compressed encoding *)
  Bytes : G -> list byte
}.

(** The points form a commutative group on which scalars act. *)
Class Laws (G : Type) {ops : Ops G} : Prop := {
  add_comm : forall p q : G, add p q = add q p;
  add_assoc : forall p q r : G, add p (add q r) = add (add p q) r;
  add_zero_l : forall p : G, add zero p = p;
  smul_one : forall p : G, ScalarMultiplication fr.One p = p
}.

(** [p.MultiExp(points, scalars, config)]: the sum of [scalars[i] * points[i]]. *)
Definition MultiExp {G} {ops : Ops G} (points : list G) (scalars : list fr.Element)
  : result G :=
  if decide (length points = length scalars) then
    Ok (foldr add zero (zip_with ScalarMultiplication scalars points))
  else Err (ErrCurve 0).

End curve.

(** ** Package [multiexp] (internal/multiexp/multiexp.go) *)

Module multiexp.

Definition MultiExp {G} {ops : curve.Ops G} (scalars : list fr.Element)
    (points : list G) : result G :=
  let len_scalars := length scalars in
  let len_points := length points in
  if negb (len_scalars =? len_points)%nat then Err ErrScalarsPointsLength
  else
    let result := curve.zero in
    if (length scalars =? 0)%nat then Ok result
    else curve.MultiExp points scalars.

End multiexp.

(** ** Package [context] (serialisation.go) *)

Module context.

Definition FIELD_ELEMENTS_PER_BLOB : Z := 4096.
Definition COMPRESSED_G1_SIZE : Z := 48.
Definition SERIALISED_SCALAR_SIZE : Z := 32.

Definition SerialisedScalar : Type := list byte.       (* [32]byte *)
Definition SerialisedG1Point : Type := list byte.      (* [48]byte *)
Definition SerialisedPoly : Type := list SerialisedScalar.
Definition SerialisedCommitments : Type := list SerialisedG1Point.

(** Go's [(value, error)] pair; [None] is the nil error. *)
Definition deserialiseScalar (serScalar : SerialisedScalar)
  : fr.Element * option error :=
  let serScalar := utils.ReverseArray serScalar in
  let '(scalar, isCanon) := utils.ReduceCanonical serScalar in
  if negb isCanon then (fr.Zero, Some ErrScalarNotCanonical)
  else (scalar, None).

(** The pair returned is [(nil, err)] on the early return; a nil slice
    is the empty list. *)
Definition deserialisePoly (serPoly : SerialisedPoly)
  : result (kzg.Polynomial * option error) :=
  let num_coeffs := length serPoly in
  let poly := replicate num_coeffs fr.Zero in
  match
    for_range 0 num_coeffs
      (fun i poly =>
         let* ser := index serPoly i in
         let '(scalar, err) := deserialiseScalar ser in
         match err with
         | Some e => Err e
         | None => store poly i scalar
         end)
      poly
  with
  | Ok poly => Ok (poly, None)
  | Err e => Ok ([], Some e)
  | Panic s => Panic s
  end.

Definition deserialisePolys (serPolys : list SerialisedPoly)
  : result (list kzg.Polynomial * option error) :=
  match
    for_range 0 (length serPolys)
      (fun i polys =>
         let* serPoly := index serPolys i in
         let* pe := deserialisePoly serPoly in
         match pe.2 with
         | Some e => Err e
         | None => Ok (polys ++ [pe.1])
         end)
      []
  with
  | Ok polys => Ok (polys, None)
  | Err e => Ok ([], Some e)
  | Panic s => Panic s
  end.

Section Points.
Context {G1 : Type} {ops : curve.Ops G1}.

Definition deserialiseG1Point (serPoint : SerialisedG1Point)
  : result (G1 * option error) :=
  match curve.SetBytes serPoint with
  | Ok point => Ok (point, None)
  | Err e => Ok (curve.zero, Some e)
  | Panic s => Panic s
  end.

Definition deserialiseComms (serComms : SerialisedCommitments)
  : result (list G1 * option error) :=
  let comms := replicate (length serComms) curve.zero in
  match
    for_range 0 (length serComms)
      (fun i comms =>
         let* ser := index serComms i in
         let* ce := deserialiseG1Point ser in
         match ce.2 with
         | Some e => Err e
         | None => store comms i ce.1
         end)
      comms
  with
  | Ok comms => Ok (comms, None)
  | Err e => Ok ([], Some e)
  | Panic s => Panic s
  end.

Definition serialiseCommitments (comms : list G1) : SerialisedCommitments :=
  curve.Bytes <$> comms.

End Points.

End context.

(** ** Go [encoding/hex] (standard library, modelled by contract) *)

Module hex.

Definition hextable : list ascii := list_ascii_of_string "0123456789abcdef".

Definition digit (n : N) : ascii := nth (N.to_nat n) hextable "0"%char.

Fixpoint EncodeToString (src : list byte) : string :=
  match src with
  | [] => EmptyString
  | b :: rest =>
      String (digit (Byte.to_N b / 16))
        (String (digit (Byte.to_N b mod 16)) (EncodeToString rest))
  end.

(** The value of a hexadecimal digit, either case. *)
Definition fromHexChar (c : ascii) : option N :=
  let n := N_of_ascii c in
  if (48 <=? n)%N && (n <=? 57)%N then Some (n - 48)%N
  else if (97 <=? n)%N && (n <=? 102)%N then Some (n - 87)%N
  else if (65 <=? n)%N && (n <=? 70)%N then Some (n - 55)%N
  else None.

Definition byte_of_N (n : N) : byte :=
  match Byte.of_N n with
  | Some b => b
  | None => x00
  end.

Fixpoint DecodeString (s : string) : result (list byte) :=
  match s with
  | EmptyString => Ok []
  | String p EmptyString =>
      match fromHexChar p with
      | None => Err (ErrHexInvalidByte p)
      | Some _ => Err ErrHexLength
      end
  | String p (String q rest) =>
      match fromHexChar p, fromHexChar q with
      | None, _ => Err (ErrHexInvalidByte p)
      | Some _, None => Err (ErrHexInvalidByte q)
      | Some a, Some b =>
          let* t := DecodeString rest in
          Ok (byte_of_N (a * 16 + b) :: t)
      end
  end.

End hex.

(** ** Package [api]: the trusted setup *)

Module api.

Definition ScalarsPerBlob : Z := 4096.

(** [SetupG1] and [SetupG1Lagrange] are arrays of [ScalarsPerBlob]
    strings in the source: the record carries their length.  [SetupG2]
    is a slice. *)
Record JSONTrustedSetup : Type := mkSetup {
  SetupG1 : list string;
  SetupG2 : list string;
  SetupG1Lagrange : list string;
  SetupG1_len : length SetupG1 = Z.to_nat ScalarsPerBlob;
  SetupG1Lagrange_len : length SetupG1Lagrange = Z.to_nat ScalarsPerBlob
}.

Section Check.
Context {G1 G2 : Type} {ops1 : curve.Ops G1} {ops2 : curve.Ops G2}.

(** The method [Domain.IfftG1] belongs to package [kzg] but is not among
    the sources: it is a parameter of the check. *)
Variable IfftG1 : kzg.Domain -> list G1 -> result (list G1).

Definition CheckTrustedSetupWellFormed (trustedSetup : JSONTrustedSetup)
  : result unit :=
  if negb (length (SetupG1 trustedSetup)
           =? length (SetupG1Lagrange trustedSetup))%nat
  then Err errLagrangeMonomialLengthMismatch
  else
    let* setupG1Points :=
      for_range 0 (length (SetupG1 trustedSetup))
        (fun i (setupG1Points : list G1) =>
           let* s := index (SetupG1 trustedSetup) i in
           let* byts := hex.DecodeString s in
           let* point := curve.SetBytes byts in
           Ok (setupG1Points ++ [point]))
        [] in
    let* domain := kzg.NewDomain ScalarsPerBlob in
    (* The G1 points will be in monomial form; convert them to lagrange form *)
    let* setupLagrangeG1 := IfftG1 domain setupG1Points in
    let* _ :=
      for_range 0 (length setupLagrangeG1)
        (fun i (_ : unit) =>
           let* p := index setupLagrangeG1 i in
           let serializedPoint := curve.Bytes p in
           let* expected := index (SetupG1Lagrange trustedSetup) i in
           if negb (String.eqb (hex.EncodeToString serializedPoint) expected)
           then Err ErrUnexpectedLagrangeSetup
           else Ok tt)
        tt in
    let* _ :=
      for_range 0 (length (SetupG2 trustedSetup))
        (fun i (_ : unit) =>
           let* s := index (SetupG2 trustedSetup) i in
           let* byts := hex.DecodeString s in
           let* point := curve.SetBytes (G := G2) byts in
           Ok tt)
        tt in
    Ok tt.

End Check.

End api.

(** ** Specification-side definitions and test data *)

(** The integer a byte string denotes when read little-endian (the wire
    format of a scalar). *)
Definition le_value (bs : list byte) : Z :=
  foldr (fun b acc => Z.of_N (Byte.to_N b) + 256 * acc) 0 bs.

(** The [n]-byte little-endian encoding of [v]. *)
Fixpoint le_bytes (n : nat) (v : Z) : list byte :=
  match n with
  | O => []
  | S n' => hex.byte_of_N (Z.to_N (v mod 256)) :: le_bytes n' (v / 256)
  end.

(** Map a fallible function over a list, stopping at the first failure. *)
Fixpoint traverse {A B} (h : A -> result B) (l : list A) : result (list B) :=
  match l with
  | [] => Ok []
  | x :: rest =>
      let* v := h x in
      let* vs := traverse h rest in
      Ok (v :: vs)
  end.

(** Decoding one scalar, as the loop of [deserialisePoly] uses it: the
    scalar, or the error that makes the loop return. *)
Definition decode_scalar (ser : context.SerialisedScalar) : result fr.Element :=
  match context.deserialiseScalar ser with
  | (scalar, None) => Ok scalar
  | (_, Some e) => Err e
  end.

(** Decoding one point of the trusted setup from its hex string. *)
Definition decode_point {G} {ops : curve.Ops G} (s : string) : result G :=
  let* byts := hex.DecodeString s in curve.SetBytes byts.

(** The hex string of the compressed encoding of a point. *)
Definition encode_point {G} {ops : curve.Ops G} (p : G) : string :=
  hex.EncodeToString (curve.Bytes p).

(** The weighted sum of a list of (scalar, point) pairs. *)
Definition msm {G} {ops : curve.Ops G} (l : list (fr.Element * G)) : G :=
  foldr curve.add curve.zero
    ((fun sp => curve.ScalarMultiplication sp.1 sp.2) <$> l).

(** Rounding up to a power of two: 0 and 1 give 1. *)
Definition next_pow2 (m : Z) : Z := 2 ^ Z.log2_up m.

(** The list [a, a*g, a*g^2, ...] of length [n]. *)
Fixpoint powers_from (g a : fr.Element) (n : nat) : list fr.Element :=
  match n with
  | O => []
  | S n' => a :: powers_from g (fr.Mul a g) n'
  end.

(** The barycentric formula over the roots of unity of a domain:
    (sum over i of poly[i] * root[i] / (z - root[i]))
      * (z^Cardinality - 1) * CardinalityInv. *)
Definition barycentric (d : kzg.Domain) (poly : kzg.Polynomial) (z : fr.Element)
  : fr.Element :=
  fr.Mul
    (fr.Mul
       (fr.Sum (zip_with (fun p r => fr.Div (fr.Mul p r) (fr.Sub z r))
                  poly (kzg.Roots d)))
       (fr.Sub (fr.Exp z (kzg.Cardinality d)) fr.One))
    (kzg.CardinalityInv d).

(** Calling the single-point evaluator independently on every pair. *)
Definition evaluate_each (d : kzg.Domain) (polys : list kzg.Polynomial)
    (evalPoints : list fr.Element) : list (result fr.Element) :=
  zip_with (kzg.EvaluateLagrangePolynomial d) polys evalPoints.

(** The bit-reversal of [i] on [k] bits. *)
Definition bitrev (k : nat) (i : nat) : nat :=
  Z.to_nat (bits.reverse_bits k (Z.of_nat i)).

(** A well-formed domain: as many roots as the cardinality says, fitting
    a Go slice, and pairwise distinct. *)
Record Domain_wf (d : kzg.Domain) : Prop := {
  wf_card : kzg.Cardinality d = Z.of_nat (length (kzg.Roots d));
  wf_fits : kzg.Cardinality d < two63;
  wf_distinct : NoDup (kzg.Roots d)
}.

(** A small model of the point interface, for running the code: the
    additive group of integers, with 48-byte big-endian encodings. *)
Module toy.

Fixpoint be_bytes (n : nat) (v : Z) : list byte :=
  match n with
  | O => []
  | S n' => be_bytes n' (v / 256) ++ [hex.byte_of_N (Z.to_N (v mod 256))]
  end.

Definition ops : curve.Ops Z :=
  {| curve.zero := 0;
     curve.add := Z.add;
     curve.ScalarMultiplication := Z.mul;
     curve.SetBytes bs :=
       if (length bs =? 48)%nat then Ok (utils.be_value bs)
       else Err (ErrCurve 1);
     curve.Bytes p := be_bytes 48 p |}.

(** Trusted setups over the small model, with the identity standing in
    for the inverse FFT. *)
Definition IfftG1 (d : kzg.Domain) (values : list Z) : result (list Z) :=
  Ok values.
Definition hex0 : string := hex.EncodeToString (be_bytes 48 0).
Definition hex1 : string := hex.EncodeToString (be_bytes 48 1).
(** A monomial entry that is not hexadecimal. *)
Definition setup_badhex : api.JSONTrustedSetup :=
  api.mkSetup (hex0 :: "0g"%string :: replicate 4094 hex1) []
    (replicate 4096 "a"%string) eq_refl eq_refl.
(** A G2 entry of odd length. *)
Definition setup_badG2 : api.JSONTrustedSetup :=
  api.mkSetup (replicate 4096 hex1) [hex1; "abc"%string]
    (replicate 4096 hex1) eq_refl eq_refl.

(** The domains [NewDomain] builds for sizes 1 and 2. *)
Definition q1 : Z := fr.Modulus - 1.
Definition domain1 : kzg.Domain :=
  kzg.mkDomain 1 1 1 1 [1] [1].
Definition domain2 : kzg.Domain :=
  kzg.mkDomain 2
    26217937587563095239723870254092982918845276250263818911301829349969290592257
    q1 q1 [1; q1] [1; q1].

End toy.

(** ** Further test data *)

Module testdata.

(** The domain of size 4, and the same domain with its roots and
    inverses bit-reversed. *)
Definition domain4 : kzg.Domain :=
  Eval vm_compute in
    match kzg.NewDomain 4 with
    | Ok d => d
    | _ => toy.domain1
    end.

Definition domain4r : kzg.Domain :=
  Eval vm_compute in
    match kzg.ReverseRoots domain4 with
    | Ok d => d
    | _ => toy.domain1
    end.

End testdata.

(** Decoding one polynomial, as the loop of [deserialisePolys] uses it:
    the polynomial, or the error that makes the loop return. *)
Definition decode_poly (serPoly : context.SerialisedPoly) : result kzg.Polynomial :=
  let* pe := context.deserialisePoly serPoly in
  match pe.2 with
  | Some e => Err e
  | None => Ok pe.1
  end.

(** * Properties *)

(** ** Loops *)

Lemma bind_Ok_inv {A B} (m : result A) (k : A -> result B) (b : B) :
  bind m k = Ok b -> exists a, m = Ok a /\ k a = Ok b.
Proof. destruct m; simpl; intros E; try discriminate. eauto. Qed.

Lemma for_range_ext {St} (f g : nat -> St -> result St) n :
  forall start s,
    (forall i s', (start <= i < start + n)%nat -> f i s' = g i s') ->
    for_range start n f s = for_range start n g s.
Proof.
  induction n as [|n IH]; intros start s Hfg; simpl; [done|].
  rewrite Hfg by lia. destruct (g start s); simpl; try done.
  apply IH. intros i s' Hi. apply Hfg. lia.
Qed.

(** A loop whose body keeps an invariant runs to completion. *)
Lemma for_range_inv {St} (I : nat -> St -> Prop) (body : nat -> St -> result St) n :
  forall start s,
    I start s ->
    (forall i s', (start <= i < start + n)%nat -> I i s' ->
                  exists s'', body i s' = Ok s'' /\ I (S i) s'') ->
    exists s', for_range start n body s = Ok s' /\ I (start + n)%nat s'.
Proof.
  induction n as [|n IH]; intros start s HI Hstep; simpl.
  - exists s. by rewrite Nat.add_0_r.
  - destruct (Hstep start s) as (s1 & -> & HI1); [lia|done|]. simpl.
    destruct (IH (S start) s1) as (s2 & -> & HI2); [done| |].
    + intros i s' Hi. apply Hstep. lia.
    + exists s2. split; [done|]. by replace (start + S n)%nat with (S start + n)%nat by lia.
Qed.

(** A loop that reads [l[i]], applies [h] and stores the outcome at [i]
    is [traverse h] over the part of [l] it visits. *)
Lemma for_range_fill {A B} (h : A -> result B) (l : list A) (z : B) m :
  forall k (done : list B),
    length done = k -> (k + m <= length l)%nat ->
    for_range k m
      (fun i acc => let* x := index l i in let* v := h x in store acc i v)
      (done ++ replicate m z)
    = let* rest := traverse h (take m (drop k l)) in Ok (done ++ rest).
Proof.
  induction m as [|m IH]; intros k done Hk Hlen; simpl.
  - by rewrite !app_nil_r.
  - destruct (lookup_lt_is_Some_2 l k) as [x Hx]; [lia|].
    rewrite (drop_S l x k Hx). simpl.
    unfold index at 1. rewrite Hx. simpl.
    destruct (h x) as [v| |]; simpl; try done.
    unfold store. rewrite decide_True by (rewrite length_app; simpl; lia).
    simpl.
    replace (<[k:=v]> (done ++ z :: replicate m z))
      with ((done ++ [v]) ++ replicate m z).
    2:{ rewrite <- Hk. rewrite insert_app_r_alt by lia.
        rewrite Nat.sub_diag. simpl. by rewrite <- app_assoc. }
    rewrite IH; [|rewrite length_app; simpl; lia|lia].
    destruct (traverse h (take m (drop (S k) l))); simpl; try done.
    by rewrite <- app_assoc.
Qed.

Lemma for_range_fill_all {A B} (h : A -> result B) (l : list A) (z : B) :
  for_range 0 (length l)
    (fun i acc => let* x := index l i in let* v := h x in store acc i v)
    (replicate (length l) z)
  = traverse h l.
Proof.
  pose proof (for_range_fill h l z (length l) 0%nat []) as E.
  simpl in E. rewrite E; [|done|lia].
  rewrite drop_0, firstn_all. by destruct (traverse h l).
Qed.

Lemma traverse_Ok {A B} (h : A -> result B) (g : A -> B) (l : list A) :
  Forall (fun x => h x = Ok (g x)) l -> traverse h l = Ok (g <$> l).
Proof.
  induction 1 as [|x l Hx _ IH]; simpl; [done|]. by rewrite Hx, IH.
Qed.

(** The first failure decides the outcome, whatever follows it. *)
Lemma traverse_app_Err {A B} (h : A -> result B) (pre post : list A) x e :
  Forall (fun y => exists v, h y = Ok v) pre -> h x = Err e ->
  traverse h (pre ++ x :: post) = Err e.
Proof.
  intros Hpre Hx. induction Hpre as [|y pre [v Hy] _ IH]; simpl.
  - by rewrite Hx.
  - by rewrite Hy, IH.
Qed.

Lemma traverse_Ok_inv {A B} (h : A -> result B) (l : list A) (vs : list B) :
  traverse h l = Ok vs -> Forall2 (fun x v => h x = Ok v) l vs.
Proof.
  revert vs. induction l as [|a l IH]; intros vs; simpl.
  - intros [= <-]. constructor.
  - intros E. apply bind_Ok_inv in E as (v & Hv & E).
    apply bind_Ok_inv in E as (vs' & Hvs & [= <-]).
    constructor; [done|]. by apply IH.
Qed.

(** ** MultiExp *)

Section MultiExp.
Context {G : Type} {ops : curve.Ops G}.

Lemma zip_with_smul (scalars : list fr.Element) (points : list G) :
  foldr curve.add curve.zero (zip_with curve.ScalarMultiplication scalars points)
  = msm (zip scalars points).
Proof.
  unfold msm. revert points.
  induction scalars as [|s ss IH]; intros [|p ps]; simpl; try done.
  by rewrite IH.
Qed.

Lemma MultiExp_same_length (scalars : list fr.Element) (points : list G) :
  length scalars = length points ->
  multiexp.MultiExp scalars points = Ok (msm (zip scalars points)).
Proof.
  intros Hlen. unfold multiexp.MultiExp.
  rewrite Hlen, Nat.eqb_refl. simpl.
  destruct points as [|p ps]; simpl.
  - by destruct scalars.
  - unfold curve.MultiExp. rewrite decide_True by done.
    by rewrite zip_with_smul.
Qed.

Lemma msm_cons (x : fr.Element * G) (l : list (fr.Element * G)) :
  msm (x :: l) = curve.add (curve.ScalarMultiplication x.1 x.2) (msm l).
Proof. reflexivity. Qed.

Lemma msm_permutation `{!curve.Laws G} (l l' : list (fr.Element * G)) :
  l ≡ₚ l' -> msm l = msm l'.
Proof.
  induction 1 as [|x l l' _ IH|x y l|l l' l'' _ IH1 _ IH2].
  - done.
  - by rewrite !msm_cons, IH.
  - rewrite !msm_cons, !curve.add_assoc. f_equal. apply curve.add_comm.
  - by rewrite IH1.
Qed.

End MultiExp.

Lemma toy_laws : curve.Laws Z (ops := toy.ops).
Proof.
  split; simpl; intros; unfold fr.One; lia.
Qed.

(** C7. [MultiExp(scalars, points)] fails with the length-mismatch error
    whenever the two lists differ in length, and on two empty lists it
    returns, without error, the identity of the group. *)
Theorem MultiExp_mismatch_and_empty {G : Type} {ops : curve.Ops G}
    {laws : curve.Laws G} :
  (forall (scalars : list fr.Element) (points : list G),
      length scalars ≠ length points ->
      multiexp.MultiExp scalars points = Err ErrScalarsPointsLength)
  /\ (exists e : G,
        multiexp.MultiExp [] [] = Ok e
        /\ forall p : G, curve.add e p = p /\ curve.add p e = p).
Proof.
  split.
  - intros scalars points Hne. unfold multiexp.MultiExp.
    destruct (Nat.eqb_spec (length scalars) (length points)) as [E|_]; [done|].
    reflexivity.
  - exists curve.zero. split; [reflexivity|].
    intros p. split; [apply curve.add_zero_l|].
    rewrite curve.add_comm. apply curve.add_zero_l.
Qed.

Lemma MultiExp_mismatch_and_empty_witness :
  multiexp.MultiExp (ops := toy.ops) [1; 2] [5] = Err ErrScalarsPointsLength
  /\ (exists e : Z,
        multiexp.MultiExp (ops := toy.ops) [] [] = Ok e
        /\ forall p : Z, e + p = p /\ p + e = p).
Proof.
  destruct (MultiExp_mismatch_and_empty (laws := toy_laws)) as [Hmis Hempty].
  split; [|exact Hempty].
  apply Hmis. simpl. lia.
Defined.

(** C9. Permuting the scalars and the points in the same way does not
    change the result of [MultiExp], and [MultiExp([1], [P])] is [P]. *)
Theorem MultiExp_permutation_and_single {G : Type} {ops : curve.Ops G}
    {laws : curve.Laws G} :
  (forall (scalars scalars' : list fr.Element) (points points' : list G),
      length scalars = length points ->
      length scalars' = length points' ->
      zip scalars points ≡ₚ zip scalars' points' ->
      multiexp.MultiExp scalars points = multiexp.MultiExp scalars' points')
  /\ (forall P : G, multiexp.MultiExp [fr.One] [P] = Ok P).
Proof.
  split.
  - intros scalars scalars' points points' Hlen Hlen' Hperm.
    rewrite !MultiExp_same_length by done.
    f_equal. by apply msm_permutation.
  - intros P. rewrite MultiExp_same_length by done.
    f_equal. unfold msm. simpl.
    rewrite curve.smul_one, curve.add_comm. apply curve.add_zero_l.
Qed.

Lemma MultiExp_permutation_and_single_witness :
  multiexp.MultiExp (ops := toy.ops) [2; 3; 4] [5; 7; 11]
  = multiexp.MultiExp (ops := toy.ops) [4; 2; 3] [11; 5; 7]
  /\ multiexp.MultiExp (ops := toy.ops) [fr.One] [9] = Ok 9.
Proof.
  destruct (MultiExp_permutation_and_single (laws := toy_laws)) as [Hperm Hone].
  split; [|apply Hone].
  apply Hperm; [reflexivity|reflexivity|].
  simpl.
  change [(4, 11); (2, 5); (3, 7)] with ([(4, 11)] ++ [(2, 5); (3, 7)]).
  change [(2, 5); (3, 7); (4, 11)] with ([(2, 5); (3, 7)] ++ [(4, 11)]).
  apply Permutation_app_comm.
Defined.

(** ** Serialisation *)

Lemma be_value_snoc (bs : list byte) (b : byte) :
  utils.be_value (bs ++ [b]) = utils.be_value bs * 256 + Z.of_N (Byte.to_N b).
Proof. unfold utils.be_value. by rewrite foldl_app. Qed.

(** Reading the reversed bytes big-endian is reading the bytes
    little-endian. *)
Lemma be_value_reverse (bs : list byte) :
  utils.be_value (utils.ReverseArray bs) = le_value bs.
Proof.
  unfold utils.ReverseArray.
  induction bs as [|b bs IH]; [done|].
  rewrite reverse_cons, be_value_snoc, IH. simpl. lia.
Qed.

Lemma le_value_nonneg (bs : list byte) : 0 <= le_value bs.
Proof. induction bs as [|b bs IH]; simpl; lia. Qed.

Lemma deserialiseScalar_eq (s : context.SerialisedScalar) :
  context.deserialiseScalar s
  = if le_value s <? fr.Modulus then (le_value s, None)
    else (fr.Zero, Some ErrScalarNotCanonical).
Proof.
  unfold context.deserialiseScalar, utils.ReduceCanonical.
  rewrite be_value_reverse.
  destruct (Z.ltb_spec (le_value s) fr.Modulus) as [Hlt|Hge]; simpl; [|done].
  rewrite Z.mod_small; [done|]. pose proof (le_value_nonneg s). lia.
Qed.

(** C4. Decoding a serialised scalar reads its bytes little-endian (the
    bytes are reversed for the big-endian field library); it fails with
    the non-canonical-scalar error exactly when that integer is at least
    the field modulus, and otherwise returns that integer itself, never a
    reduced one.  The encoding of the modulus minus one decodes; that of
    the modulus does not. *)
Theorem deserialiseScalar_canonical :
  (forall s : context.SerialisedScalar,
      utils.be_value (utils.ReverseArray s) = le_value s)
  /\ (forall s : context.SerialisedScalar,
        (context.deserialiseScalar s).2 = Some ErrScalarNotCanonical
        <-> fr.Modulus <= le_value s)
  /\ (forall s : context.SerialisedScalar,
        le_value s < fr.Modulus ->
        context.deserialiseScalar s = (le_value s, None))
  /\ (forall (s : context.SerialisedScalar) (v : fr.Element),
        context.deserialiseScalar s = (v, None) ->
        v = le_value s /\ 0 <= v < fr.Modulus)
  /\ context.deserialiseScalar (le_bytes 32 (fr.Modulus - 1))
     = (fr.Modulus - 1, None)
  /\ context.deserialiseScalar (le_bytes 32 fr.Modulus)
     = (fr.Zero, Some ErrScalarNotCanonical).
Proof.
  split; [exact be_value_reverse|].
  split.
  { intros s. rewrite deserialiseScalar_eq.
    destruct (Z.ltb_spec (le_value s) fr.Modulus); simpl; split;
      intros; (done || lia). }
  split.
  { intros s Hlt. rewrite deserialiseScalar_eq.
    by destruct (Z.ltb_spec (le_value s) fr.Modulus); [|lia]. }
  split.
  { intros s v. rewrite deserialiseScalar_eq.
    pose proof (le_value_nonneg s).
    destruct (Z.ltb_spec (le_value s) fr.Modulus); [|done].
    intros [= <-]. lia. }
  split; vm_compute; reflexivity.
Qed.

Lemma deserialiseScalar_canonical_witness :
  context.deserialiseScalar (le_bytes 32 258) = (le_value (le_bytes 32 258), None)
  /\ le_value (le_bytes 32 258) = 258.
Proof.
  split; [|reflexivity].
  apply (proj1 (proj2 (proj2 deserialiseScalar_canonical))).
  vm_compute. reflexivity.
Defined.

Lemma deserialisePoly_traverse (serPoly : context.SerialisedPoly) :
  context.deserialisePoly serPoly
  = match traverse decode_scalar serPoly with
    | Ok poly => Ok (poly, None)
    | Err e => Ok ([], Some e)
    | Panic s => Panic s
    end.
Proof.
  unfold context.deserialisePoly.
  rewrite <- (for_range_fill_all decode_scalar serPoly fr.Zero).
  erewrite for_range_ext; [reflexivity|].
  intros i acc _. simpl. destruct (index serPoly i) as [ser| |]; simpl; try done.
  unfold decode_scalar.
  by destruct (context.deserialiseScalar ser) as [scalar [e|]].
Qed.

Lemma deserialiseComms_traverse {G1 : Type} {ops : curve.Ops G1}
    (serComms : context.SerialisedCommitments) :
  context.deserialiseComms serComms
  = match traverse (curve.SetBytes (G := G1)) serComms with
    | Ok comms => Ok (comms, None)
    | Err e => Ok ([], Some e)
    | Panic s => Panic s
    end.
Proof.
  unfold context.deserialiseComms.
  unfold context.SerialisedCommitments, context.SerialisedG1Point in *.
  rewrite <- (for_range_fill_all curve.SetBytes serComms curve.zero).
  erewrite for_range_ext; [reflexivity|].
  intros i acc _. simpl. destruct (index serComms i) as [ser| |]; simpl; try done.
  unfold context.deserialiseG1Point.
  destruct (curve.SetBytes ser); reflexivity.
Qed.

Lemma traverse_Forall2 {A B} (h : A -> result B) (l : list A) (vs : list B) :
  Forall2 (fun x v => h x = Ok v) l vs -> traverse h l = Ok vs.
Proof.
  induction 1 as [|x v l vs Hx _ IH]; simpl; [done|]. by rewrite Hx, IH.
Qed.

Lemma decode_scalar_Ok (s : context.SerialisedScalar) :
  (context.deserialiseScalar s).2 = None ->
  decode_scalar s = Ok (context.deserialiseScalar s).1.
Proof.
  unfold decode_scalar.
  destruct (context.deserialiseScalar s) as [v [e|]]; simpl; by intros.
Qed.

Lemma decode_scalar_Err (s : context.SerialisedScalar) (e : error) :
  (context.deserialiseScalar s).2 = Some e -> decode_scalar s = Err e.
Proof.
  unfold decode_scalar.
  destruct (context.deserialiseScalar s) as [v [e'|]]; simpl; [|done].
  by intros [= ->].
Qed.

Lemma decode_scalar_Ok_inv (s : context.SerialisedScalar) (v : fr.Element) :
  decode_scalar s = Ok v ->
  (context.deserialiseScalar s).2 = None /\ v = (context.deserialiseScalar s).1.
Proof.
  unfold decode_scalar.
  destruct (context.deserialiseScalar s) as [v' [e|]]; simpl; [done|].
  by intros [= ->].
Qed.

(** C8. Decoding a polynomial decodes its scalars in order and stops at
    the first one [deserialiseScalar] rejects, returning that error and a
    nil polynomial, whatever follows; it returns the whole decoded
    polynomial exactly when every element decodes.  Decoding a list of
    commitments behaves in the same way, with the error of the first
    point that does not decode. *)
Theorem deserialise_fail_fast {G1 : Type} {ops : curve.Ops G1} :
  (forall (pre post : context.SerialisedPoly) (ser : context.SerialisedScalar)
          (e : error),
      Forall (fun s => (context.deserialiseScalar s).2 = None) pre ->
      (context.deserialiseScalar ser).2 = Some e ->
      context.deserialisePoly (pre ++ ser :: post) = Ok ([], Some e))
  /\ (forall serPoly : context.SerialisedPoly,
        Forall (fun s => (context.deserialiseScalar s).2 = None) serPoly ->
        context.deserialisePoly serPoly
        = Ok ((fun s => (context.deserialiseScalar s).1) <$> serPoly, None))
  /\ (forall (serPoly : context.SerialisedPoly) (poly : kzg.Polynomial),
        context.deserialisePoly serPoly = Ok (poly, None) ->
        Forall (fun s => (context.deserialiseScalar s).2 = None) serPoly
        /\ poly = (fun s => (context.deserialiseScalar s).1) <$> serPoly)
  /\ (forall (pre post : context.SerialisedCommitments)
             (ser : context.SerialisedG1Point) (e : error),
        Forall (fun s => exists p : G1, curve.SetBytes s = Ok p) pre ->
        curve.SetBytes (G := G1) ser = Err e ->
        context.deserialiseComms (G1 := G1) (pre ++ ser :: post)
        = Ok ([], Some e))
  /\ (forall (serComms : context.SerialisedCommitments) (comms : list G1),
        Forall2 (fun s p => curve.SetBytes s = Ok p) serComms comms ->
        context.deserialiseComms serComms = Ok (comms, None))
  /\ (forall (serComms : context.SerialisedCommitments) (comms : list G1),
        context.deserialiseComms serComms = Ok (comms, None) ->
        Forall2 (fun s p => curve.SetBytes s = Ok p) serComms comms).
Proof.
  split; [|split; [|split; [|split; [|split]]]].
  - intros pre post ser e Hpre Hser. rewrite deserialisePoly_traverse.
    rewrite (traverse_app_Err _ _ _ _ e); [done| |by apply decode_scalar_Err].
    eapply Forall_impl; [exact Hpre|]. intros s Hs.
    eexists. by apply decode_scalar_Ok.
  - intros serPoly Hall. rewrite deserialisePoly_traverse.
    rewrite (traverse_Ok _ (fun s => (context.deserialiseScalar s).1)); [done|].
    eapply Forall_impl; [exact Hall|]. intros s Hs. by apply decode_scalar_Ok.
  - intros serPoly poly E. rewrite deserialisePoly_traverse in E.
    destruct (traverse decode_scalar serPoly) as [vs| |] eqn:Et; try discriminate.
    injection E as <-. apply traverse_Ok_inv in Et.
    induction Et as [|s v l vs Hs _ [IH1 IH2]]; [done|].
    apply decode_scalar_Ok_inv in Hs as [Hnone ->].
    split; [by constructor|]. by rewrite fmap_cons, <- IH2.
  - intros pre post ser e Hpre Hser. rewrite deserialiseComms_traverse.
    by rewrite (traverse_app_Err _ _ _ _ e).
  - intros serComms comms Hall. rewrite deserialiseComms_traverse.
    by rewrite (traverse_Forall2 _ _ comms).
  - intros serComms comms E. rewrite deserialiseComms_traverse in E.
    destruct (traverse curve.SetBytes serComms) as [vs| |] eqn:Et;
      try discriminate.
    injection E as <-. by apply traverse_Ok_inv.
Qed.

Lemma deserialise_fail_fast_witness :
  context.deserialisePoly
    ([le_bytes 32 7] ++ le_bytes 32 fr.Modulus :: [le_bytes 32 1])
  = Ok ([], Some ErrScalarNotCanonical)
  /\ context.deserialisePoly [le_bytes 32 7; le_bytes 32 1]
     = Ok ([7; 1], None)
  /\ context.deserialiseComms (ops := toy.ops)
       ([replicate 48 x01] ++ [x00] :: [replicate 48 x02])
     = Ok ([], Some (ErrCurve 1))
  /\ context.deserialiseComms (ops := toy.ops) [replicate 48 x00]
     = Ok ([0], None).
Proof.
  destruct (deserialise_fail_fast (ops := toy.ops))
    as (Hfail & Hok & _ & Hcfail & Hcok & _).
  split; [|split; [|split]].
  - apply Hfail.
    + repeat constructor.
    + vm_compute. reflexivity.
  - apply (Hok [le_bytes 32 7; le_bytes 32 1]). repeat constructor.
  - apply Hcfail.
    + constructor; [|constructor]. eexists. vm_compute. reflexivity.
    + reflexivity.
  - apply Hcok. constructor; [|constructor]. vm_compute. reflexivity.
Defined.

(** ** Field arithmetic *)

Lemma Modulus_pos : 0 < fr.Modulus.
Proof. reflexivity. Qed.

Lemma Mul_comm (a b : fr.Element) : fr.Mul a b = fr.Mul b a.
Proof. unfold fr.Mul. by rewrite Z.mul_comm. Qed.

Lemma Mul_assoc (a b c : fr.Element) :
  fr.Mul a (fr.Mul b c) = fr.Mul (fr.Mul a b) c.
Proof.
  unfold fr.Mul.
  rewrite Zmult_mod_idemp_r, Zmult_mod_idemp_l. by rewrite Z.mul_assoc.
Qed.

Lemma Add_range (a b : fr.Element) : 0 <= fr.Add a b < fr.Modulus.
Proof. unfold fr.Add. apply Z.mod_pos_bound, Modulus_pos. Qed.

(** Accumulating from the left or from the right gives the same sum. *)
Lemma foldl_Add (l : list fr.Element) :
  forall a, 0 <= a < fr.Modulus ->
            foldl fr.Add a l = (a + foldr Z.add 0 l) mod fr.Modulus.
Proof.
  induction l as [|t l IH]; intros a Ha; simpl.
  - rewrite Z.add_0_r. symmetry. by apply Z.mod_small.
  - rewrite IH by apply Add_range. unfold fr.Add.
    rewrite Zplus_mod_idemp_l. f_equal. lia.
Qed.

Lemma Sum_mod (l : list fr.Element) :
  fr.Sum l = (foldr Z.add 0 l) mod fr.Modulus.
Proof.
  unfold fr.Sum. induction l as [|t l IH]; simpl; [done|].
  rewrite IH. unfold fr.Add. by rewrite Zplus_mod_idemp_r.
Qed.

Lemma foldl_Add_Sum (l : list fr.Element) : foldl fr.Add fr.Zero l = fr.Sum l.
Proof.
  rewrite foldl_Add, Sum_mod; [done|]. unfold fr.Zero.
  pose proof Modulus_pos. lia.
Qed.

(** ** Lagrange evaluation *)

Lemma findRootIndex_loop_found (roots : list fr.Element) (z : fr.Element) n :
  forall k i,
    (k <= i < k + n)%nat ->
    roots !! i = Some z ->
    (forall j r, (k <= j < i)%nat -> roots !! j = Some r -> r ≠ z) ->
    kzg.findRootIndex_loop roots z k n = Ok (Z.of_nat i).
Proof.
  induction n as [|n IH]; intros k i Hi Hz Hbefore; [lia|]. simpl.
  destruct (decide (k = i)) as [->|Hne].
  - unfold index. rewrite Hz. simpl. unfold fr.Equal. by rewrite Z.eqb_refl.
  - destruct (lookup_lt_is_Some_2 roots k) as [r Hr].
    { apply lookup_lt_Some in Hz. lia. }
    unfold index. rewrite Hr. simpl. unfold fr.Equal.
    destruct (Z.eqb_spec z r) as [->|_].
    + exfalso. by apply (Hbefore k r); [lia|..].
    + apply IH; [lia|done|]. intros j r' Hj. apply Hbefore. lia.
Qed.

Lemma findRootIndex_loop_absent (roots : list fr.Element) (z : fr.Element) n :
  forall k,
    (k + n <= length roots)%nat ->
    z ∉ roots ->
    kzg.findRootIndex_loop roots z k n = Ok (-1).
Proof.
  induction n as [|n IH]; intros k Hk Hz; [done|]. simpl.
  destruct (lookup_lt_is_Some_2 roots k) as [r Hr]; [lia|].
  unfold index. rewrite Hr. simpl. unfold fr.Equal.
  destruct (Z.eqb_spec z r) as [->|_].
  - exfalso. apply Hz. by eapply list_elem_of_lookup_2.
  - apply IH; [lia|done].
Qed.

Lemma int_of_uint64_small (x : Z) : x < two63 -> int_of_uint64 x = x.
Proof.
  intros Hx. unfold int_of_uint64.
  by destruct (Z.ltb_spec x two63); [|lia].
Qed.

Lemma findRootIndex_found (d : kzg.Domain) (z : fr.Element) (i : nat) :
  Domain_wf d -> kzg.Roots d !! i = Some z ->
  kzg.findRootIndex d z = Ok (Z.of_nat i).
Proof.
  intros [Hcard Hfits Hnodup] Hz. unfold kzg.findRootIndex.
  rewrite int_of_uint64_small by done. rewrite Hcard, Nat2Z.id.
  apply findRootIndex_loop_found; [|done|].
  - apply lookup_lt_Some in Hz. lia.
  - intros j r Hj Hr ->.
    pose proof (NoDup_lookup _ _ _ _ Hnodup Hr Hz). lia.
Qed.

Lemma findRootIndex_absent (d : kzg.Domain) (z : fr.Element) :
  Domain_wf d -> z ∉ kzg.Roots d -> kzg.findRootIndex d z = Ok (-1).
Proof.
  intros [Hcard Hfits Hnodup] Hz. unfold kzg.findRootIndex.
  rewrite int_of_uint64_small by done. rewrite Hcard, Nat2Z.id.
  by apply findRootIndex_loop_absent.
Qed.

(** The denominators [z - root[i]], one per root. *)
Lemma denominators_loop (roots : list fr.Element) (z : fr.Element) :
  for_range 0 (length roots)
    (fun i denom => let* r := index roots i in store denom i (fr.Sub z r))
    (replicate (length roots) fr.Zero)
  = Ok (fr.Sub z <$> roots).
Proof.
  pose proof (for_range_fill_all (fun r => Ok (fr.Sub z r)) roots fr.Zero) as E.
  simpl in E. rewrite E.
  apply traverse_Ok. by apply Forall_forall.
Qed.

(** The accumulation of [poly[i] * root[i] * invDenom[i]]. *)
Lemma accumulate_loop (poly roots invs : list fr.Element) m :
  forall k acc,
    (k + m <= length poly)%nat -> length roots = length poly ->
    length invs = length poly ->
    for_range k m
      (fun i result =>
         let* p := index poly i in
         let* r := index roots i in
         let num := fr.Mul p r in
         let* inv := index invs i in
         let div := fr.Mul num inv in
         Ok (fr.Add result div))
      acc
    = Ok (foldl fr.Add acc
            (take m (drop k
               (zip_with (fun pr inv => fr.Mul (fr.Mul pr.1 pr.2) inv)
                  (zip poly roots) invs)))).
Proof.
  induction m as [|m IH]; intros k acc Hk Hr Hi; [done|].
  destruct (lookup_lt_is_Some_2 poly k) as [p Hp]; [lia|].
  destruct (lookup_lt_is_Some_2 roots k) as [r Hrk]; [lia|].
  destruct (lookup_lt_is_Some_2 invs k) as [inv Hinv]; [lia|].
  cbn [for_range]. unfold index at 1 2 3. rewrite Hp, Hrk, Hinv. cbn [bind].
  rewrite IH by lia.
  erewrite (drop_S _ (fr.Mul (fr.Mul p r) inv) k); [done|].
  rewrite !lookup_zip_with. by rewrite Hp, Hrk, Hinv.
Qed.

Lemma terms_eq (poly roots : list fr.Element) (z : fr.Element) :
  zip_with (fun pr inv => fr.Mul (fr.Mul pr.1 pr.2) inv)
    (zip poly roots) (fr.BatchInvert (fr.Sub z <$> roots))
  = zip_with (fun p r => fr.Div (fr.Mul p r) (fr.Sub z r)) poly roots.
Proof.
  revert roots. induction poly as [|p poly IH]; intros [|r roots]; try done.
  cbn [zip_with fmap list_fmap fr.BatchInvert]. f_equal. apply IH.
Qed.

Lemma scale_barycentric (d : kzg.Domain) (poly : kzg.Polynomial) (z : fr.Element) :
  kzg.Cardinality d < two63 ->
  kzg.scale d z
    (fr.Sum (zip_with (fun p r => fr.Div (fr.Mul p r) (fr.Sub z r))
               poly (kzg.Roots d)))
  = barycentric d poly z.
Proof.
  intros Hfits. unfold kzg.scale, barycentric.
  rewrite int_of_uint64_small by done.
  rewrite (Mul_comm _ (fr.Sum _)). apply Mul_assoc.
Qed.

Lemma evaluate_in_domain (d : kzg.Domain) (poly : kzg.Polynomial)
    (z : fr.Element) (i : nat) :
  Domain_wf d -> kzg.Cardinality d = Z.of_nat (length poly) ->
  kzg.Roots d !! i = Some z ->
  exists v, poly !! i = Some v
            /\ kzg.evaluateLagrangePolynomial d poly z = Ok (v, Z.of_nat i).
Proof.
  intros Hwf Hlen Hz.
  destruct (lookup_lt_is_Some_2 poly i) as [v Hv].
  { apply lookup_lt_Some in Hz. destruct Hwf as [Hcard _ _]. lia. }
  exists v. split; [done|].
  unfold kzg.evaluateLagrangePolynomial.
  rewrite Hlen, Z.eqb_refl. cbn [negb].
  rewrite (findRootIndex_found d z i) by done. cbn [bind].
  destruct (Z.eqb_spec (Z.of_nat i) (-1)) as [?|_]; [lia|]. cbn [negb].
  unfold indexZ. destruct (Z.ltb_spec (Z.of_nat i) 0) as [?|_]; [lia|].
  rewrite Nat2Z.id. unfold index. by rewrite Hv.
Qed.

Lemma evaluate_outside_domain (d : kzg.Domain) (poly : kzg.Polynomial)
    (z : fr.Element) :
  Domain_wf d -> kzg.Cardinality d = Z.of_nat (length poly) ->
  z ∉ kzg.Roots d ->
  kzg.evaluateLagrangePolynomial d poly z = Ok (barycentric d poly z, -1).
Proof.
  intros Hwf Hlen Hz. pose proof Hwf as [Hcard Hfits _].
  assert (Hroots : length (kzg.Roots d) = length poly) by lia.
  unfold kzg.evaluateLagrangePolynomial.
  rewrite Hlen at 1. rewrite Z.eqb_refl. cbn [negb].
  rewrite (findRootIndex_absent d z) by done. cbn [bind].
  change (negb (-1 =? -1)) with false. cbv iota.
  unfold make. destruct (Z.ltb_spec (kzg.Cardinality d) two63) as [_|?]; [|lia].
  cbn [bind]. rewrite length_replicate.
  rewrite int_of_uint64_small by done.
  rewrite Hcard, Nat2Z.id.
  rewrite denominators_loop. cbn [bind].
  rewrite Hroots.
  rewrite (accumulate_loop poly (kzg.Roots d) _ (length poly) 0 fr.Zero);
    [|lia|done|].
  2:{ unfold fr.BatchInvert. by rewrite !length_fmap. }
  cbn [bind]. rewrite drop_0, terms_eq.
  rewrite take_ge by (rewrite length_zip_with; lia).
  rewrite foldl_Add_Sum. by rewrite scale_barycentric.
Qed.

(** C5. [EvaluateLagrangePolynomial] fails with the size-mismatch error
    whenever the polynomial's length differs from the cardinality of the
    domain.  On a well-formed domain and a polynomial of matching length,
    (which every domain built by [NewDomain] is, see [NewDomain_wf])
    a point equal to the root at index [i] yields [poly[i]], and any other
    point yields the barycentric value
    (sum of poly[i] * root[i] / (z - root[i])) * (z^Cardinality - 1) * CardinalityInv. *)
Theorem EvaluateLagrangePolynomial_spec (d : kzg.Domain) (poly : kzg.Polynomial)
    (z : fr.Element) :
  (kzg.Cardinality d ≠ Z.of_nat (length poly) ->
   kzg.EvaluateLagrangePolynomial d poly z = Err ErrPolynomialMismatchedSizeDomain)
  /\ (Domain_wf d -> kzg.Cardinality d = Z.of_nat (length poly) ->
      (forall i : nat,
          kzg.Roots d !! i = Some z ->
          exists v, poly !! i = Some v
                    /\ kzg.EvaluateLagrangePolynomial d poly z = Ok v)
      /\ (z ∉ kzg.Roots d ->
          kzg.EvaluateLagrangePolynomial d poly z = Ok (barycentric d poly z))).
Proof.
  split.
  - intros Hne. unfold kzg.EvaluateLagrangePolynomial, kzg.evaluateLagrangePolynomial.
    by destruct (Z.eqb_spec (kzg.Cardinality d) (Z.of_nat (length poly))).
  - intros Hwf Hlen. split.
    + intros i Hz.
      destruct (evaluate_in_domain d poly z i Hwf Hlen Hz) as (v & Hv & E).
      exists v. split; [done|].
      unfold kzg.EvaluateLagrangePolynomial. by rewrite E.
    + intros Hz. unfold kzg.EvaluateLagrangePolynomial.
      by rewrite evaluate_outside_domain.
Qed.

(** The test domains are the ones [NewDomain] builds. *)
Example NewDomain_1 : kzg.NewDomain 1 = Ok toy.domain1.
Proof. vm_compute. reflexivity. Qed.

Example NewDomain_2 : kzg.NewDomain 2 = Ok toy.domain2.
Proof. vm_compute. reflexivity. Qed.

Lemma domain2_wf : Domain_wf toy.domain2.
Proof.
  split; [reflexivity|reflexivity|].
  apply (bool_decide_unpack _). vm_compute. exact I.
Defined.

Lemma EvaluateLagrangePolynomial_spec_witness :
  kzg.EvaluateLagrangePolynomial toy.domain2 [1; 2; 3] toy.q1
  = Err ErrPolynomialMismatchedSizeDomain
  /\ (exists v, [10; 20] !! 1%nat = Some v
                /\ kzg.EvaluateLagrangePolynomial toy.domain2 [10; 20] toy.q1 = Ok v)
  /\ kzg.EvaluateLagrangePolynomial toy.domain2 [10; 20] 2
     = Ok (barycentric toy.domain2 [10; 20] 2).
Proof.
  split; [|split].
  - apply (proj1 (EvaluateLagrangePolynomial_spec toy.domain2 [1; 2; 3] toy.q1)).
    vm_compute. discriminate.
  - apply (proj2 (EvaluateLagrangePolynomial_spec toy.domain2 [10; 20] toy.q1)
             domain2_wf eq_refl).
    reflexivity.
  - apply (proj2 (EvaluateLagrangePolynomial_spec toy.domain2 [10; 20] 2)
             domain2_wf eq_refl).
    apply (bool_decide_unpack _). vm_compute. exact I.
Defined.

(** C2 (the code departs from the claim).  With every polynomial as long
    as the domain and as many points as polynomials, the batched
    evaluator indexes [denom] out of bounds as soon as a point lies in
    the domain: [denom] has room for the points outside the domain only,
    yet the loop writes at [polyOffset + rootIndex] for every point. *)
Theorem EvaluateLagrangePolynomials_panics_in_domain :
  kzg.EvaluateLagrangePolynomials toy.domain1 [[5]] [1]
  = Panic index_out_of_range
  /\ kzg.EvaluateLagrangePolynomials toy.domain2
       [[1; 2]; [3; 4]; [5; 6]] [1; toy.q1; 2]
     = Panic index_out_of_range
  /\ kzg.EvaluateLagrangePolynomial toy.domain1 [5] 1 = Ok 5.
Proof. repeat split; vm_compute; reflexivity. Qed.

(** C1 (the code departs from the claim).  On two polynomials and two
    points outside the domain of size 2 the batched evaluator returns a
    value for the first pair that differs from the single-point
    evaluator's: the denominators of the second point overwrite those of
    the first from offset 1 on. *)
Theorem EvaluateLagrangePolynomials_differs_from_single :
  kzg.EvaluateLagrangePolynomials toy.domain2 [[1; 2]; [3; 4]] [2; 3]
  = Ok [0; 2]
  /\ evaluate_each toy.domain2 [[1; 2]; [3; 4]] [2; 3]
     = [Ok 26217937587563095239723870254092982918845276250263818911301829349969290592257;
        Ok 2].
Proof. split; vm_compute; reflexivity. Qed.

(** ** Powers of two and [math/bits] *)

Lemma pos_ones_pos (p : positive) : (1 <= bits.pos_ones p)%nat.
Proof. induction p; simpl; lia. Qed.

Lemma pos_of_pow2 (k : nat) :
  forall p : positive,
    Zpos p = 2 ^ Z.of_nat k -> bits.pos_ones p = 1%nat /\ bits.pos_tz p = k.
Proof.
  induction k as [|k IH]; intros p Hp.
  - change (2 ^ Z.of_nat 0) with 1 in Hp. by injection Hp as ->.
  - rewrite Nat2Z.inj_succ, Z.pow_succ_r in Hp by lia.
    assert (0 < 2 ^ Z.of_nat k) by (apply Z.pow_pos_nonneg; lia).
    destruct p as [p'|p'|]; [lia| |lia].
    destruct (IH p') as [H1 H2]; [lia|]. simpl. by rewrite H1, H2.
Qed.

Lemma pos_ones_1 (p : positive) :
  bits.pos_ones p = 1%nat -> Zpos p = 2 ^ Z.of_nat (bits.pos_tz p).
Proof.
  induction p as [p' IH|p' IH|]; simpl; intros Hp.
  - pose proof (pos_ones_pos p'). lia.
  - rewrite Nat2Z.inj_succ, Z.pow_succ_r by lia. rewrite <- IH by done. lia.
  - done.
Qed.

Lemma TrailingZeros64_pow2 (k : Z) :
  0 <= k -> bits.TrailingZeros64 (2 ^ k) = k.
Proof.
  intros Hk. assert (0 < 2 ^ k) by (apply Z.pow_pos_nonneg; lia).
  destruct (2 ^ k) as [|p|p] eqn:E; [lia| |lia].
  rewrite <- (Z2Nat.id k) in E by lia. symmetry in E.
  destruct (pos_of_pow2 _ _ E) as [_ Htz]. simpl. rewrite Htz. lia.
Qed.

Lemma shl64_one (s : Z) : 0 <= s < 64 -> shl64 1 s = 2 ^ s.
Proof.
  intros Hs. unfold shl64.
  destruct (Z.leb_spec 64 s); [lia|].
  rewrite Z.shiftl_1_l. apply Z.mod_small. split.
  - apply Z.pow_nonneg. lia.
  - unfold two64. apply Z.pow_lt_mono_r; lia.
Qed.

Lemma next_pow2_pow2 (k : Z) : 0 <= k -> next_pow2 (2 ^ k) = 2 ^ k.
Proof. intros Hk. unfold next_pow2. by rewrite Z.log2_up_pow2. Qed.

(** [next_pow2 m] is the least power of two that is at least [m]. *)
Lemma next_pow2_least (m : Z) :
  m <= next_pow2 m
  /\ (exists k, 0 <= k /\ next_pow2 m = 2 ^ k)
  /\ (forall j, 0 <= j -> m <= 2 ^ j -> next_pow2 m <= 2 ^ j).
Proof.
  unfold next_pow2. split; [|split].
  - destruct (Z.le_gt_cases m 1) as [Hle|Hgt].
    + rewrite Z.log2_up_eqn0 by done. simpl. lia.
    + apply Z.log2_up_spec. lia.
  - exists (Z.log2_up m). split; [apply Z.log2_up_nonneg|done].
  - intros j Hj Hm. apply Z.pow_le_mono_r; [lia|].
    destruct (Z.le_gt_cases m 1) as [Hle|Hgt].
    + rewrite Z.log2_up_eqn0 by done. done.
    + rewrite <- (Z.log2_up_pow2 j) by done.
      apply Z.log2_up_le_mono. done.
Qed.

(** [ecc.NextPowerOfTwo] rounds up, and panics when the result does not
    fit 64 bits. *)
Lemma NextPowerOfTwo_spec (m : Z) :
  0 <= m < two64 ->
  (next_pow2 m <= two63 -> ecc.NextPowerOfTwo m = Ok (next_pow2 m))
  /\ (two63 < next_pow2 m -> exists msg, ecc.NextPowerOfTwo m = Panic msg).
Proof.
  intros Hm. unfold ecc.NextPowerOfTwo.
  destruct m as [|p|p]; [|..|lia].
  { split; [reflexivity|]. intros Hbig. vm_compute in Hbig. discriminate. }
  cbn [bits.OnesCount64].
  pose proof (pos_ones_pos p) as Hones.
  destruct (Z.eqb_spec (Z.of_nat (bits.pos_ones p)) 0) as [?|_]; [lia|].
  destruct (Z.eqb_spec (Z.of_nat (bits.pos_ones p)) 1) as [H1|Hn1].
  - assert (E : Zpos p = 2 ^ Z.of_nat (bits.pos_tz p)) by (apply pos_ones_1; lia).
    rewrite E at 2 3 4. rewrite next_pow2_pow2 by lia. rewrite <- E.
    split; [done|]. intros Hbig. exfalso.
    assert (Z.of_nat (bits.pos_tz p) < 64).
    { apply (Z.pow_lt_mono_r_iff 2); [lia|lia|]. rewrite <- E. apply Hm. }
    assert (2 ^ Z.of_nat (bits.pos_tz p) <= 2 ^ 63)
      by (apply Z.pow_le_mono_r; lia).
    unfold two63 in Hbig. lia.
  - (* not a power of two: the next one is 2^(log2 m + 1) *)
    assert (Hlog : Z.log2_up (Zpos p) = Z.log2 (Zpos p) + 1).
    { pose proof (Z.le_log2_up_succ_log2 (Zpos p)).
      pose proof (Z.le_log2_log2_up (Zpos p)).
      destruct (Z.eq_dec (Z.log2 (Zpos p)) (Z.log2_up (Zpos p))) as [Heq|?]; [|lia].
      apply Z.log2_log2_up_exact in Heq as [b Hb]; [|lia].
      exfalso. apply Hn1.
      assert (0 <= b).
      { destruct (Z.lt_ge_cases b 0); [|done].
        rewrite Z.pow_neg_r in Hb by done. lia. }
      rewrite <- (Z2Nat.id b) in Hb by done.
      destruct (pos_of_pow2 _ _ Hb) as [-> _]. done. }
    assert (Hlt : Z.log2 (Zpos p) < 64).
    { apply Z.log2_lt_pow2; [lia|apply Hm]. }
    pose proof (Z.log2_nonneg (Zpos p)) as Hnn.
    unfold bits.LeadingZeros64, bits.Len64, next_pow2. rewrite Hlog.
    destruct (Z.eqb_spec (64 - (Z.log2 (Zpos p) + 1)) 0) as [E0|Hne0].
    + replace (Z.log2 (Zpos p) + 1) with 64 by lia. split; [|by eexists].
      unfold two63. lia.
    + replace (64 - (64 - (Z.log2 (Zpos p) + 1))) with (Z.log2 (Zpos p) + 1) by lia.
      rewrite shl64_one by lia. split; [done|].
      intros Hbig. exfalso.
      assert (2 ^ (Z.log2 (Zpos p) + 1) <= 2 ^ 63) by (apply Z.pow_le_mono_r; lia).
      unfold two63 in Hbig. lia.
Qed.

(** ** Domain construction *)

Lemma length_powers_from (g : fr.Element) n :
  forall a, length (powers_from g a n) = n.
Proof. induction n as [|n IH]; intros a; simpl; [done|]. by rewrite IH. Qed.

Lemma powers_from_lookup_S (g : fr.Element) n :
  forall a i r,
    powers_from g a n !! i = Some r -> (S i < n)%nat ->
    powers_from g a n !! S i = Some (fr.Mul r g).
Proof.
  induction n as [|n IH]; intros a i r Hi Hlt; [lia|].
  destruct i as [|i]; simpl in *.
  - injection Hi as <-. destruct n; [lia|done].
  - apply IH; [done|lia].
Qed.

(** The roots are residues of powers of the base root of unity. *)
Lemma powers_from_pow (w e : Z) n :
  forall t i r,
    0 <= e -> 0 <= t ->
    powers_from (w ^ e mod fr.Modulus) (w ^ t mod fr.Modulus) n !! i = Some r ->
    r = w ^ (t + e * Z.of_nat i) mod fr.Modulus.
Proof.
  induction n as [|n IH]; intros t i r He Ht Hi; [done|].
  destruct i as [|i]; simpl in Hi.
  - injection Hi as <-. f_equal. f_equal. lia.
  - unfold fr.Mul in Hi. rewrite <- Zmult_mod, <- Z.pow_add_r in Hi by lia.
    apply IH in Hi; [|lia|lia]. rewrite Hi. f_equal. f_equal. lia.
Qed.

Lemma roots_loop (g : fr.Element) m :
  forall k (done : list fr.Element) a,
    length done = k ->
    exists a',
      for_range k m
        (fun i (st : list fr.Element * fr.Element) =>
           let* roots := store st.1 i st.2 in
           Ok (roots, fr.Mul st.2 g))
        (done ++ replicate m fr.Zero, a)
      = Ok (done ++ powers_from g a m, a').
Proof.
  induction m as [|m IH]; intros k done a Hk.
  - exists a. done.
  - cbn [for_range replicate powers_from fst snd]. unfold store at 1.
    rewrite decide_True by (rewrite length_app; simpl; lia).
    cbn [bind fst snd].
    replace (<[k:=a]> (done ++ fr.Zero :: replicate m fr.Zero))
      with ((done ++ [a]) ++ replicate m fr.Zero).
    2:{ rewrite <- Hk. rewrite insert_app_r_alt by lia.
        rewrite Nat.sub_diag. simpl. by rewrite <- app_assoc. }
    destruct (IH (S k) (done ++ [a]) (fr.Mul a g)) as [a' ->].
    { rewrite length_app. simpl. lia. }
    exists a'. by rewrite <- app_assoc.
Qed.

Lemma inverses_loop (roots : list fr.Element) (n : nat) :
  n = length roots ->
  for_range 0 n
    (fun i invs => let* r := index roots i in store invs i (fr.Inverse r))
    (replicate n fr.Zero)
  = Ok (fr.Inverse <$> roots).
Proof.
  intros ->.
  pose proof (for_range_fill_all (fun r => Ok (fr.Inverse r)) roots fr.Zero) as E.
  simpl in E. rewrite E.
  apply traverse_Ok. by apply Forall_forall.
Qed.

(** A residue of a power of an element of order dividing [q - 1] is
    inverted by [Inverse]. *)
Lemma pow_Inverse (w N c : Z) :
  0 <= N -> 0 <= c -> w ^ N mod fr.Modulus = 1 -> fr.Modulus - 1 = N * c ->
  forall t, 0 <= t ->
    fr.Mul (w ^ t mod fr.Modulus) (fr.Inverse (w ^ t mod fr.Modulus)) = fr.One.
Proof.
  intros HN Hc Hord Hq t Ht. pose proof Modulus_pos as Hpos.
  assert (Hq2 : 2 <= fr.Modulus) by (vm_compute; discriminate).
  unfold fr.Mul, fr.Inverse, fr.One.
  rewrite Zpow_mod_correct by lia.
  rewrite Zmult_mod_idemp_r.
  rewrite <- Z.pow_succ_r by lia.
  rewrite <- Zpower_mod by lia.
  rewrite <- Z.pow_mul_r by lia.
  replace (t * Z.succ (fr.Modulus - 2)) with (N * (c * t)) by lia.
  rewrite Z.pow_mul_r by lia.
  rewrite Zpower_mod by lia. rewrite Hord.
  rewrite Z.pow_1_l by lia. by apply Z.mod_small.
Qed.

Lemma rootOfUnity_order :
  kzg.rootOfUnity ^ (2 ^ 32) mod fr.Modulus = 1.
Proof.
  pose proof (Zpow_mod_correct kzg.rootOfUnity (2 ^ 32) fr.Modulus) as E.
  rewrite <- E.
  - vm_compute. reflexivity.
  - intros H. discriminate H.
Qed.

Lemma Modulus_two_adicity :
  fr.Modulus - 1 = 2 ^ 32 * ((fr.Modulus - 1) / 2 ^ 32).
Proof. vm_compute. reflexivity. Qed.

Lemma root_Inverse (t : Z) :
  0 <= t ->
  fr.Mul (kzg.rootOfUnity ^ t mod fr.Modulus)
    (fr.Inverse (kzg.rootOfUnity ^ t mod fr.Modulus)) = fr.One.
Proof.
  apply (pow_Inverse kzg.rootOfUnity (2 ^ 32) ((fr.Modulus - 1) / 2 ^ 32)).
  - lia.
  - vm_compute. discriminate.
  - exact rootOfUnity_order.
  - exact Modulus_two_adicity.
Qed.

Lemma pow2_le_two63 (k : Z) : 0 <= k <= 63 -> 0 < 2 ^ k <= two63.
Proof.
  intros Hk. split; [apply Z.pow_pos_nonneg; lia|].
  unfold two63. apply Z.pow_le_mono_r; lia.
Qed.

Lemma NewDomain_ok (m k : Z) :
  0 <= m < two64 -> 0 <= k <= 32 -> next_pow2 m = 2 ^ k ->
  let g := kzg.rootOfUnity ^ (2 ^ (32 - k)) mod fr.Modulus in
  let roots := powers_from g fr.One (Z.to_nat (2 ^ k)) in
  kzg.NewDomain m
  = Ok (kzg.mkDomain (2 ^ k) (fr.Inverse (fr.SetUint64 (2 ^ k)))
          g (fr.Inverse g) roots (fr.Inverse <$> roots)).
Proof.
  intros Hm Hk Hx g roots.
  pose proof (pow2_le_two63 k ltac:(lia)) as Hk63.
  pose proof (pow2_le_two63 (32 - k) ltac:(lia)) as He63.
  assert (H32 : 2 ^ k <= 2 ^ 32) by (apply Z.pow_le_mono_r; lia).
  assert (He32 : 2 ^ (32 - k) <= 2 ^ 32) by (apply Z.pow_le_mono_r; lia).
  assert (Hlt : 2 ^ 32 < two63) by reflexivity.
  unfold kzg.NewDomain.
  destruct (NextPowerOfTwo_spec m Hm) as [Hnext _].
  rewrite Hnext by (rewrite Hx; lia).
  rewrite Hx. cbn [bind].
  rewrite TrailingZeros64_pow2 by lia. unfold kzg.maxOrderRoot.
  rewrite Z.gtb_ltb. destruct (Z.ltb_spec 32 k) as [?|_]; [lia|].
  rewrite shl64_one by lia.
  rewrite int_of_uint64_small by lia.
  unfold fr.Exp. destruct (Z.ltb_spec (2 ^ (32 - k)) 0) as [?|_]; [lia|].
  rewrite Zpow_mod_correct by (intros H; discriminate H).
  fold g.
  unfold make. destruct (Z.ltb_spec (2 ^ k) two63) as [_|?]; [|lia].
  cbn [bind].
  destruct (roots_loop g (Z.to_nat (2 ^ k)) 0 [] fr.One eq_refl) as [a' E].
  cbn [app] in E. rewrite E. cbn [bind fst].
  fold roots.
  rewrite (inverses_loop roots); [done|].
  unfold roots. by rewrite length_powers_from.
Qed.

Lemma NewDomain_too_big (m : Z) :
  0 <= m < two64 -> 2 ^ 32 < next_pow2 m ->
  exists msg, kzg.NewDomain m = Panic msg.
Proof.
  intros Hm Hbig. unfold kzg.NewDomain.
  destruct (NextPowerOfTwo_spec m Hm) as [Hok Hpanic].
  destruct (Z.le_gt_cases (next_pow2 m) two63) as [Hle|Hgt].
  - rewrite Hok by done. cbn [bind].
    destruct (next_pow2_least m) as (_ & (k & Hk & Hx) & _).
    rewrite Hx in *. rewrite TrailingZeros64_pow2 by done.
    unfold kzg.maxOrderRoot. rewrite Z.gtb_ltb.
    destruct (Z.ltb_spec 32 k) as [_|Hk32]; [by eexists|].
    assert (2 ^ k <= 2 ^ 32) by (apply Z.pow_le_mono_r; lia). lia.
  - destruct (Hpanic ltac:(lia)) as [msg ->]. by eexists.
Qed.

(** C6. [NewDomain(size)] rounds [size] up to the next power of two [x].
    It panics whenever [x] exceeds 2^32.  Otherwise (sizes 0 and 1
    included, with [x = 1]) it returns a domain of cardinality [x] with
    exactly [x] roots, the first being 1 and each next one the previous
    times the generator, and with as many precomputed inverses, each the
    multiplicative inverse of the root at its index. *)
Theorem NewDomain_spec (m : Z) :
  0 <= m < two64 ->
  (m <= next_pow2 m
   /\ (exists k, 0 <= k /\ next_pow2 m = 2 ^ k)
   /\ (forall j, 0 <= j -> m <= 2 ^ j -> next_pow2 m <= 2 ^ j))
  /\ (2 ^ 32 < next_pow2 m -> exists msg, kzg.NewDomain m = Panic msg)
  /\ (next_pow2 m <= 2 ^ 32 ->
      exists d,
        kzg.NewDomain m = Ok d
        /\ kzg.Cardinality d = next_pow2 m
        /\ Z.of_nat (length (kzg.Roots d)) = next_pow2 m
        /\ kzg.Roots d !! 0%nat = Some fr.One
        /\ (forall (i : nat) (a : fr.Element),
               kzg.Roots d !! i = Some a ->
               (S i < length (kzg.Roots d))%nat ->
               kzg.Roots d !! S i = Some (fr.Mul a (kzg.Generator d)))
        /\ length (kzg.PreComputedInverses d) = length (kzg.Roots d)
        /\ (forall (i : nat) (r : fr.Element),
               kzg.Roots d !! i = Some r ->
               exists v, kzg.PreComputedInverses d !! i = Some v
                         /\ v = fr.Inverse r
                         /\ fr.Mul r v = fr.One)).
Proof.
  intros Hm. split; [apply next_pow2_least|].
  split; [by apply NewDomain_too_big|].
  intros Hsmall.
  destruct (next_pow2_least m) as (_ & (k & Hk & Hx) & _).
  assert (Hk32 : k <= 32).
  { rewrite Hx in Hsmall. apply (Z.pow_le_mono_r_iff 2) in Hsmall; lia. }
  eexists. split; [apply (NewDomain_ok m k); [done|lia|done]|].
  cbn [kzg.Cardinality kzg.Roots kzg.PreComputedInverses kzg.Generator].
  rewrite length_powers_from, length_fmap, length_powers_from.
  assert (0 < 2 ^ k) by (apply Z.pow_pos_nonneg; lia).
  repeat split.
  - done.
  - rewrite Hx. lia.
  - destruct (Z.to_nat (2 ^ k)) as [|n] eqn:En; [lia|done].
  - intros i a Hi Hlt. by apply powers_from_lookup_S.
  - intros i r Hi. exists (fr.Inverse r). split; [|split; [done|]].
    + by rewrite list_lookup_fmap, Hi.
    + change fr.One with (kzg.rootOfUnity ^ 0 mod fr.Modulus) in Hi.
      apply powers_from_pow in Hi; [|apply Z.pow_nonneg; lia|lia].
      subst r. apply root_Inverse.
      assert (0 <= 2 ^ (32 - k)) by (apply Z.pow_nonneg; lia). lia.
Qed.

Lemma NewDomain_spec_witness :
  (exists d, kzg.NewDomain 0 = Ok d /\ kzg.Cardinality d = 1
             /\ kzg.Roots d !! 0%nat = Some fr.One)
  /\ (exists msg, kzg.NewDomain (2 ^ 33) = Panic msg).
Proof.
  split.
  - destruct (NewDomain_spec 0) as (_ & _ & Hok); [done|].
    destruct Hok as (d & Hd & Hcard & _ & Hroot & _); [done|].
    exists d. split; [exact Hd|]. split; [exact Hcard|exact Hroot].
  - destruct (NewDomain_spec (2 ^ 33)) as (_ & Hpanic & _); [done|].
    apply Hpanic. reflexivity.
Defined.

(** ** Bit reversal *)

Lemma reverse_bits_0 (w : nat) : bits.reverse_bits w 0 = 0.
Proof.
  induction w as [|w IH]; cbn [bits.reverse_bits]; [done|].
  rewrite Zdiv_0_l, Zmod_0_l, IH. lia.
Qed.

Lemma reverse_bits_range (w : nat) :
  forall x, 0 <= bits.reverse_bits w x < 2 ^ Z.of_nat w.
Proof.
  induction w as [|w IH]; intros x; cbn [bits.reverse_bits]; [simpl; lia|].
  rewrite Nat2Z.inj_succ, Z.pow_succ_r by lia.
  pose proof (IH (x / 2)). pose proof (Z.mod_pos_bound x 2 ltac:(lia)).
  nia.
Qed.

(** Reversing within a wider word shifts the narrow reversal up. *)
Lemma reverse_bits_widen (k : nat) :
  forall (w : nat) x,
    (k <= w)%nat -> 0 <= x < 2 ^ Z.of_nat k ->
    bits.reverse_bits w x = bits.reverse_bits k x * 2 ^ Z.of_nat (w - k).
Proof.
  induction k as [|k IH]; intros w x Hw Hx.
  - assert (x = 0) as -> by (simpl in Hx; lia).
    rewrite reverse_bits_0. simpl. lia.
  - destruct w as [|w]; [lia|]. cbn [bits.reverse_bits].
    rewrite Nat2Z.inj_succ, Z.pow_succ_r in Hx by lia.
    rewrite (IH w (x / 2)); [|lia|].
    2:{ split; [apply Z.div_pos; lia|apply Z.div_lt_upper_bound; lia]. }
    replace (S w - S k)%nat with (w - k)%nat by lia.
    replace (Z.of_nat w) with (Z.of_nat k + Z.of_nat (w - k)) at 1 by lia.
    rewrite Z.pow_add_r by lia. ring.
Qed.

(** Peeling the high bit instead of the low one. *)
Lemma reverse_bits_high (k : nat) :
  forall y,
    0 <= y < 2 ^ Z.of_nat (S k) ->
    bits.reverse_bits (S k) y
    = bits.reverse_bits k (y mod 2 ^ Z.of_nat k) * 2 + y / 2 ^ Z.of_nat k.
Proof.
  induction k as [|k IH]; intros y Hy.
  - change (2 ^ Z.of_nat 1) with 2 in Hy. cbn [bits.reverse_bits].
    change (2 ^ Z.of_nat 0) with 1. rewrite Z.div_1_r.
    rewrite (Z.mod_small y 2) by lia. lia.
  - assert (Hpos : 0 < 2 ^ Z.of_nat k) by (apply Z.pow_pos_nonneg; lia).
    assert (E : 2 ^ Z.of_nat (S k) = 2 * 2 ^ Z.of_nat k).
    { rewrite Nat2Z.inj_succ, Z.pow_succ_r; lia. }
    rewrite (Nat2Z.inj_succ (S k)), Z.pow_succ_r in Hy by lia.
    change (bits.reverse_bits (S (S k)) y)
      with (y mod 2 * 2 ^ Z.of_nat (S k) + bits.reverse_bits (S k) (y / 2)).
    rewrite (IH (y / 2)).
    2:{ split; [apply Z.div_pos; lia|apply Z.div_lt_upper_bound; lia]. }
    cbn [bits.reverse_bits]. rewrite E.
    rewrite (Z.rem_mul_r y 2 (2 ^ Z.of_nat k)) by lia.
    rewrite <- (Z.div_div y 2 (2 ^ Z.of_nat k)) by lia.
    pose proof (Z.mod_pos_bound y 2 ltac:(lia)) as Hb.
    replace ((y mod 2 + 2 * ((y / 2) mod 2 ^ Z.of_nat k)) mod 2) with (y mod 2).
    2:{ rewrite (Z.mul_comm 2), Z.mod_add by lia.
        symmetry. apply Z.mod_small. lia. }
    replace ((y mod 2 + 2 * ((y / 2) mod 2 ^ Z.of_nat k)) / 2)
      with ((y / 2) mod 2 ^ Z.of_nat k).
    2:{ rewrite (Z.mul_comm 2), Z.div_add by lia.
        rewrite (Z.div_small (y mod 2)) by lia. lia. }
    ring.
Qed.

Lemma reverse_bits_involutive (k : nat) :
  forall x,
    0 <= x < 2 ^ Z.of_nat k ->
    bits.reverse_bits k (bits.reverse_bits k x) = x.
Proof.
  induction k as [|k IH]; intros x Hx.
  - simpl in *. lia.
  - assert (Hpos : 0 < 2 ^ Z.of_nat k) by (apply Z.pow_pos_nonneg; lia).
    rewrite reverse_bits_high by apply reverse_bits_range.
    cbn [bits.reverse_bits].
    pose proof (reverse_bits_range k (x / 2)) as Hr.
    pose proof (Z.mod_pos_bound x 2 ltac:(lia)) as Hb.
    rewrite (Z.add_comm (x mod 2 * 2 ^ Z.of_nat k)).
    rewrite Z.mod_add, Z.div_add by lia.
    rewrite (Z.mod_small (bits.reverse_bits k (x / 2))) by lia.
    rewrite (Z.div_small (bits.reverse_bits k (x / 2))) by lia.
    rewrite IH.
    2:{ rewrite Nat2Z.inj_succ, Z.pow_succ_r in Hx by lia.
        split; [apply Z.div_pos; lia|apply Z.div_lt_upper_bound; lia]. }
    pose proof (Z.div_mod x 2 ltac:(lia)). lia.
Qed.

(** The index the source computes is the [k]-bit reversal. *)
Lemma irev_eq (k : nat) (i : Z) :
  (k <= 64)%nat -> 0 <= i < 2 ^ Z.of_nat k ->
  shr64 (bits.Reverse64 i) (64 - Z.of_nat k) = bits.reverse_bits k i.
Proof.
  intros Hk Hi. unfold shr64, bits.Reverse64.
  destruct (Z.leb_spec 64 (64 - Z.of_nat k)) as [Hge|Hlt].
  - assert (k = 0%nat) as -> by lia. done.
  - rewrite (reverse_bits_widen k 64 i) by done.
    rewrite Z.shiftr_div_pow2 by lia.
    replace (64 - Z.of_nat k) with (Z.of_nat (64 - k)) by lia.
    apply Z.div_mul. apply Z.pow_nonzero; lia.
Qed.

Lemma bitrev_lt (k i : nat) :
  Z.of_nat i < 2 ^ Z.of_nat k -> Z.of_nat (bitrev k i) < 2 ^ Z.of_nat k.
Proof.
  intros _. unfold bitrev.
  pose proof (reverse_bits_range k (Z.of_nat i)). lia.
Qed.

Lemma bitrev_involutive (k i : nat) :
  Z.of_nat i < 2 ^ Z.of_nat k -> bitrev k (bitrev k i) = i.
Proof.
  intros Hi. unfold bitrev.
  pose proof (reverse_bits_range k (Z.of_nat i)).
  rewrite Z2Nat.id by lia.
  rewrite reverse_bits_involutive by lia. lia.
Qed.

Lemma swap_ok {K} (l : list K) (i j : nat) (a b : K) :
  l !! i = Some a -> l !! j = Some b ->
  kzg.swap l i j = Ok (<[j := a]> (<[i := b]> l)).
Proof.
  intros Hi Hj. unfold kzg.swap, index. rewrite Hj, Hi. cbn [bind].
  unfold store.
  rewrite decide_True by (by eapply lookup_lt_Some).
  cbn [bind].
  rewrite decide_True; [done|].
  rewrite length_insert. by eapply lookup_lt_Some.
Qed.

(** Swapping [i] with [p i] whenever [p i > i], for an involution [p] of
    the indices, permutes the list by [p]. *)
Lemma swap_loop {K} (p : nat -> nat) (n : nat) (l : list K) :
  length l = n ->
  (forall i, (i < n)%nat -> (p i < n)%nat /\ p (p i) = i) ->
  exists l',
    for_range 0 n
      (fun i cur => if (i <? p i)%nat then kzg.swap cur i (p i) else Ok cur) l
    = Ok l'
    /\ length l' = n
    /\ forall j, (j < n)%nat -> l' !! j = l !! p j.
Proof.
  intros Hlen Hp.
  destruct (for_range_inv
              (fun t cur =>
                 length cur = n
                 /\ forall j, (j < n)%nat ->
                              cur !! j
                              = l !! (if decide (j < t \/ p j < t)%nat
                                      then p j else j))
              (fun i cur => if (i <? p i)%nat then kzg.swap cur i (p i) else Ok cur)
              n 0%nat l) as (l' & Hl' & Hlen' & Hperm).
  - split; [done|]. intros j Hj. by rewrite decide_False by lia.
  - intros t cur Ht [Hcur Hinv].
    destruct (Hp t) as [Hpt Hppt]; [lia|].
    destruct (Nat.ltb_spec t (p t)) as [Hlt|Hge].
    + destruct (lookup_lt_is_Some_2 cur t) as [b Hb]; [lia|].
      destruct (lookup_lt_is_Some_2 cur (p t)) as [a Ha]; [lia|].
      eexists. split; [by apply swap_ok|].
      split; [by rewrite !length_insert|].
      intros j Hj. destruct (Hp j Hj) as [Hpj Hppj].
      destruct (decide (j = p t)) as [->|Hne1].
      * rewrite list_lookup_insert_eq by (rewrite length_insert; lia).
        rewrite <- Hb, (Hinv t) by lia.
        rewrite decide_False by lia. rewrite decide_True by lia.
        by rewrite Hppt.
      * rewrite list_lookup_insert_ne by done.
        destruct (decide (j = t)) as [->|Hne2].
        -- rewrite list_lookup_insert_eq by lia.
           rewrite <- Ha, (Hinv (p t)) by lia.
           rewrite decide_False by lia. by rewrite decide_True by lia.
        -- rewrite list_lookup_insert_ne by done.
           rewrite Hinv by done.
           assert (p j ≠ t) by (intros E; apply Hne1; by rewrite <- E).
           destruct (decide (j < t \/ p j < t)%nat);
             [by rewrite decide_True by lia|by rewrite decide_False by lia].
    + exists cur. split; [done|]. split; [done|].
      intros j Hj. destruct (Hp j Hj) as [Hpj Hppj].
      rewrite Hinv by done.
      destruct (decide (j < t \/ p j < t)%nat) as [Hc|Hc].
      * by rewrite decide_True by lia.
      * destruct (decide (j < S t \/ p j < S t)%nat) as [Hc'|Hc']; [|done].
        assert (j = t \/ p j = t) as [->|E] by lia.
        -- f_equal. lia.
        -- assert (j = p t) by (by rewrite <- E). f_equal. lia.
  - exists l'. split; [done|]. split; [done|].
    intros j Hj. rewrite Hperm by done. by rewrite decide_True by lia.
Qed.

Lemma IsPowerOfTwo_pow2 (k : Z) : 0 <= k -> utils.IsPowerOfTwo (2 ^ k) = true.
Proof.
  intros Hk. unfold utils.IsPowerOfTwo.
  assert (0 < 2 ^ k) by (apply Z.pow_pos_nonneg; lia).
  rewrite Z.log2_pow2 by done.
  destruct (Z.ltb_spec 0 (2 ^ k)); [|lia]. by rewrite Z.eqb_refl.
Qed.

(** [bitReverse] on a list of length [2^k] succeeds and moves the element
    at the bit-reversed index to every index. *)
Lemma bitReverse_perm {K} (l : list K) (k : nat) :
  (k <= 64)%nat -> Z.of_nat (length l) = 2 ^ Z.of_nat k ->
  exists l',
    kzg.bitReverse l = Ok l'
    /\ length l' = length l
    /\ forall j, (j < length l)%nat -> l' !! j = l !! bitrev k j.
Proof.
  intros Hk Hlen. unfold kzg.bitReverse.
  rewrite Hlen, IsPowerOfTwo_pow2 by lia. cbn [negb].
  rewrite TrailingZeros64_pow2 by lia. rewrite <- Hlen, Nat2Z.id.
  destruct (swap_loop (bitrev k) (length l) l eq_refl) as (l' & Hl' & Hlen' & Hperm).
  { intros i Hi. split; [|apply bitrev_involutive; lia].
    pose proof (bitrev_lt k i). lia. }
  exists l'. split; [|done].
  rewrite <- Hl'. apply for_range_ext.
  intros i cur Hi.
  rewrite irev_eq by lia.
  pose proof (reverse_bits_range k (Z.of_nat i)) as Hr.
  replace (bits.reverse_bits k (Z.of_nat i)) with (Z.of_nat (bitrev k i))
    by (unfold bitrev; lia).
  rewrite Nat2Z.id. rewrite Z.gtb_ltb.
  destruct (Z.ltb_spec (Z.of_nat i) (Z.of_nat (bitrev k i)));
    destruct (Nat.ltb_spec i (bitrev k i)); (done || lia).
Qed.

Lemma bitReverse_involutive {K} (l l' : list K) (k : nat) :
  (k <= 64)%nat -> Z.of_nat (length l) = 2 ^ Z.of_nat k ->
  kzg.bitReverse l = Ok l' -> kzg.bitReverse l' = Ok l.
Proof.
  intros Hk Hlen E.
  destruct (bitReverse_perm l k Hk Hlen) as (l1 & E1 & Hlen1 & Hperm1).
  rewrite E in E1. injection E1 as <-.
  destruct (bitReverse_perm l' k Hk) as (l2 & E2 & Hlen2 & Hperm2); [lia|].
  rewrite E2. f_equal. apply list_eq. intros j.
  destruct (decide (j < length l)%nat) as [Hj|Hj].
  - pose proof (bitrev_lt k j) as Hlt.
    rewrite Hperm2 by lia. rewrite Hperm1 by lia.
    by rewrite bitrev_involutive by lia.
  - rewrite !lookup_ge_None_2; [done|lia|lia].
Qed.

(** C10. On a domain whose root list and inverse list have a power of
    two as length, [ReverseRoots] succeeds, leaves the cardinality, the
    generator, its inverse and the inverse of the cardinality unchanged,
    and applying it a second time gives back the original domain: both
    lists return to their original order. *)
Theorem ReverseRoots_involution (d : kzg.Domain) (k1 k2 : nat) :
  (k1 < 63)%nat -> (k2 < 63)%nat ->
  Z.of_nat (length (kzg.Roots d)) = 2 ^ Z.of_nat k1 ->
  Z.of_nat (length (kzg.PreComputedInverses d)) = 2 ^ Z.of_nat k2 ->
  exists d',
    kzg.ReverseRoots d = Ok d'
    /\ kzg.Cardinality d' = kzg.Cardinality d
    /\ kzg.Generator d' = kzg.Generator d
    /\ kzg.GeneratorInv d' = kzg.GeneratorInv d
    /\ kzg.CardinalityInv d' = kzg.CardinalityInv d
    /\ (forall j, (j < length (kzg.Roots d))%nat ->
                  kzg.Roots d' !! j = kzg.Roots d !! bitrev k1 j)
    /\ (forall j, (j < length (kzg.PreComputedInverses d))%nat ->
                  kzg.PreComputedInverses d' !! j
                  = kzg.PreComputedInverses d !! bitrev k2 j)
    /\ kzg.ReverseRoots d' = Ok d.
Proof.
  intros Hk1 Hk2 Hroots Hinvs.
  destruct (bitReverse_perm (kzg.Roots d) k1) as (r' & Er & _ & Hr); [lia|done|].
  destruct (bitReverse_perm (kzg.PreComputedInverses d) k2)
    as (i' & Ei & _ & Hi); [lia|done|].
  eexists. split.
  { unfold kzg.ReverseRoots. rewrite Er, Ei. reflexivity. }
  cbn [kzg.Cardinality kzg.Generator kzg.GeneratorInv kzg.CardinalityInv
         kzg.Roots kzg.PreComputedInverses].
  repeat split; try done.
  unfold kzg.ReverseRoots.
  cbn [kzg.Cardinality kzg.Generator kzg.GeneratorInv kzg.CardinalityInv
         kzg.Roots kzg.PreComputedInverses].
  rewrite (bitReverse_involutive _ _ k1 ltac:(lia) Hroots Er).
  rewrite (bitReverse_involutive _ _ k2 ltac:(lia) Hinvs Ei).
  by destruct d.
Qed.

Lemma ReverseRoots_involution_witness :
  exists d',
    kzg.ReverseRoots testdata.domain4 = Ok d'
    /\ kzg.Cardinality d' = 4
    /\ kzg.Roots d' !! 1%nat = kzg.Roots testdata.domain4 !! 2%nat
    /\ kzg.ReverseRoots d' = Ok testdata.domain4.
Proof.
  destruct (ReverseRoots_involution testdata.domain4 2 2)
    as (d' & E & Hc & _ & _ & _ & Hr & _ & E');
    [lia|lia|reflexivity|reflexivity|].
  exists d'. split; [exact E|]. split; [exact Hc|]. split; [|exact E'].
  apply (Hr 1%nat). simpl. lia.
Defined.

(** ** Constructed domains are well-formed *)

Lemma pos_odd_part (p : positive) :
  exists (a : nat) (b : Z), 0 <= b /\ Zpos p = 2 ^ Z.of_nat a * (2 * b + 1).
Proof.
  induction p as [p' _|p' (a & b & Hb & E)|].
  - exists 0%nat, (Zpos p'). split; [lia|]. change (2 ^ Z.of_nat 0) with 1. lia.
  - exists (S a), b. split; [done|].
    rewrite Nat2Z.inj_succ, Z.pow_succ_r by lia. lia.
  - exists 0%nat, 0. split; [lia|]. reflexivity.
Qed.

(** An element whose [2^s]-th power is [-1] has order exactly [2^(s+1)]. *)
Lemma pow_ne_1 (w : Z) (s : nat) :
  w ^ (2 ^ Z.of_nat s) mod fr.Modulus = fr.Modulus - 1 ->
  forall n, 0 < n < 2 ^ Z.of_nat (S s) -> w ^ n mod fr.Modulus ≠ 1.
Proof.
  intros Hminus n Hn Hone. pose proof Modulus_pos as Hpos.
  assert (Hq3 : 3 <= fr.Modulus) by (vm_compute; discriminate).
  destruct n as [|p|p]; [lia| |lia].
  destruct (pos_odd_part p) as (a & b & Hb & E).
  assert (H2a : 0 < 2 ^ Z.of_nat a) by (apply Z.pow_pos_nonneg; lia).
  assert (Ha : (a <= s)%nat).
  { destruct (decide (a <= s)%nat) as [|Hgt]; [done|]. exfalso.
    assert (2 ^ Z.of_nat (S s) <= 2 ^ Z.of_nat a) by (apply Z.pow_le_mono_r; lia).
    nia. }
  (* raise to the power 2^(s-a) *)
  assert (H1 : w ^ (Zpos p * 2 ^ Z.of_nat (s - a)) mod fr.Modulus = 1).
  { rewrite Z.pow_mul_r by lia. rewrite Zpower_mod by lia.
    rewrite Hone, Z.pow_1_l by lia. apply Z.mod_small. lia. }
  assert (E2 : Zpos p * 2 ^ Z.of_nat (s - a) = 2 ^ Z.of_nat s * (2 * b + 1)).
  { assert (Hs : 2 ^ Z.of_nat s = 2 ^ Z.of_nat a * 2 ^ Z.of_nat (s - a)).
    { rewrite <- Z.pow_add_r by lia. f_equal. lia. }
    rewrite E, Hs. ring. }
  rewrite E2 in H1.
  rewrite Z.pow_mul_r, Zpower_mod, Hminus in H1 by lia.
  (* (q-1)^(2b+1) is q-1 modulo q *)
  assert (Hsq : (fr.Modulus - 1) ^ 2 mod fr.Modulus = 1)
    by (vm_compute; reflexivity).
  replace (2 * b + 1) with (1 + 2 * b) in H1 by lia.
  rewrite Z.pow_add_r, Z.pow_1_r, Z.pow_mul_r in H1 by lia.
  rewrite <- Zmult_mod_idemp_r, Zpower_mod, Hsq, Z.pow_1_l in H1 by lia.
  rewrite Zmult_mod_idemp_r, Z.mul_1_r, Z.mod_small in H1 by lia.
  lia.
Qed.

(** Distinct exponents below the order give distinct powers. *)
Lemma pow_injective (w E K : Z) :
  0 < E -> 0 < K ->
  w ^ (E * K) mod fr.Modulus = 1 ->
  (forall n, 0 < n < E * K -> w ^ n mod fr.Modulus ≠ 1) ->
  forall i j, 0 <= i < j -> j < K ->
              w ^ (E * i) mod fr.Modulus ≠ w ^ (E * j) mod fr.Modulus.
Proof.
  intros HE HK Hord Hmin i j Hij HjK Heq. pose proof Modulus_pos as Hpos.
  apply (Hmin (E * (j - i))); [nia|].
  transitivity (w ^ (E * (j - i) + E * K) mod fr.Modulus).
  { rewrite Z.pow_add_r by nia.
    rewrite <- Zmult_mod_idemp_r, Hord, Z.mul_1_r. done. }
  replace (E * (j - i) + E * K) with (E * j + E * (K - i)) by lia.
  rewrite Z.pow_add_r by nia.
  rewrite <- Zmult_mod_idemp_l, <- Heq, Zmult_mod_idemp_l.
  rewrite <- Z.pow_add_r by nia.
  replace (E * i + E * (K - i)) with (E * K) by lia. done.
Qed.

Lemma rootOfUnity_half :
  kzg.rootOfUnity ^ (2 ^ Z.of_nat 31) mod fr.Modulus = fr.Modulus - 1.
Proof.
  pose proof (Zpow_mod_correct kzg.rootOfUnity (2 ^ Z.of_nat 31) fr.Modulus) as E.
  rewrite <- E.
  - vm_compute. reflexivity.
  - intros H. discriminate H.
Qed.

Lemma roots_distinct (k : Z) :
  0 <= k <= 32 ->
  NoDup (powers_from (kzg.rootOfUnity ^ (2 ^ (32 - k)) mod fr.Modulus) fr.One
           (Z.to_nat (2 ^ k))).
Proof.
  intros Hk.
  assert (HE : 0 < 2 ^ (32 - k)) by (apply Z.pow_pos_nonneg; lia).
  assert (HK : 0 < 2 ^ k) by (apply Z.pow_pos_nonneg; lia).
  assert (HEK : 2 ^ (32 - k) * 2 ^ k = 2 ^ 32).
  { rewrite <- Z.pow_add_r by lia. f_equal. lia. }
  assert (Hne : forall i j, 0 <= i < j -> j < 2 ^ k ->
                  kzg.rootOfUnity ^ (2 ^ (32 - k) * i) mod fr.Modulus
                  ≠ kzg.rootOfUnity ^ (2 ^ (32 - k) * j) mod fr.Modulus).
  { apply pow_injective; [exact HE|exact HK| |].
    - rewrite HEK. exact rootOfUnity_order.
    - rewrite HEK. exact (pow_ne_1 kzg.rootOfUnity 31 rootOfUnity_half). }
  clear HEK.
  apply NoDup_alt. intros i j x Hi Hj.
  pose proof (lookup_lt_Some _ _ _ Hi) as Hli.
  pose proof (lookup_lt_Some _ _ _ Hj) as Hlj.
  rewrite length_powers_from in Hli, Hlj.
  change fr.One with (kzg.rootOfUnity ^ 0 mod fr.Modulus) in Hi, Hj.
  apply powers_from_pow in Hi; [|lia|lia].
  apply powers_from_pow in Hj; [|lia|lia].
  rewrite Z.add_0_l in Hi, Hj.
  destruct (Nat.lt_trichotomy i j) as [Hlt|[Heq|Hgt]]; [|done|].
  - exfalso. apply (Hne (Z.of_nat i) (Z.of_nat j)); [lia|lia|congruence].
  - exfalso. apply (Hne (Z.of_nat j) (Z.of_nat i)); [lia|lia|congruence].
Qed.

(** Every domain [NewDomain] returns is well-formed. *)
Lemma NewDomain_wf (m : Z) (d : kzg.Domain) :
  0 <= m < two64 -> kzg.NewDomain m = Ok d -> Domain_wf d.
Proof.
  intros Hm Hd.
  destruct (next_pow2_least m) as (_ & (k & Hk & Hx) & _).
  destruct (Z.le_gt_cases (next_pow2 m) (2 ^ 32)) as [Hsmall|Hbig].
  - assert (Hk32 : k <= 32).
    { rewrite Hx in Hsmall. apply (Z.pow_le_mono_r_iff 2) in Hsmall; lia. }
    rewrite (NewDomain_ok m k) in Hd by (done || lia).
    injection Hd as <-.
    assert (0 < 2 ^ k) by (apply Z.pow_pos_nonneg; lia).
    split; cbn [kzg.Cardinality kzg.Roots].
    + rewrite length_powers_from. lia.
    + pose proof (pow2_le_two63 k ltac:(lia)) as H63.
      assert (2 ^ k <= 2 ^ 32) by (apply Z.pow_le_mono_r; lia).
      assert (2 ^ 32 < two63) by reflexivity. lia.
    + apply roots_distinct. lia.
  - destruct (NewDomain_too_big m Hm) as [msg E]; [lia|]. congruence.
Qed.

(** [ReverseRoots] keeps a domain well-formed. *)
Lemma ReverseRoots_wf (d d' : kzg.Domain) (k : nat) :
  (k < 63)%nat -> Z.of_nat (length (kzg.Roots d)) = 2 ^ Z.of_nat k ->
  Domain_wf d -> kzg.ReverseRoots d = Ok d' -> Domain_wf d'.
Proof.
  intros Hk Hlen [Hcard Hfits Hnodup] E. unfold kzg.ReverseRoots in E.
  destruct (bitReverse_perm (kzg.Roots d) k) as (r' & Er & Hlr & Hr); [lia|done|].
  rewrite Er in E. cbn [bind] in E.
  destruct (kzg.bitReverse (kzg.PreComputedInverses d)) as [i'| |];
    try discriminate.
  injection E as <-. split; cbn [kzg.Cardinality kzg.Roots].
  - by rewrite Hlr.
  - done.
  - apply NoDup_alt. intros i j x Hi Hj.
    pose proof (lookup_lt_Some _ _ _ Hi) as Hli.
    pose proof (lookup_lt_Some _ _ _ Hj) as Hlj.
    rewrite Hlr in Hli, Hlj.
    rewrite Hr in Hi, Hj by done.
    pose proof (NoDup_lookup _ _ _ _ Hnodup Hi Hj) as Hij.
    rewrite <- (bitrev_involutive k i), <- (bitrev_involutive k j) by lia.
    by rewrite Hij.
Qed.

(** ** Trusted setup *)

Lemma for_range_append {A B} (h : A -> result B) (l : list A) m :
  forall k (acc : list B),
    (k + m <= length l)%nat ->
    for_range k m
      (fun i pts => let* s := index l i in let* v := h s in Ok (pts ++ [v]))
      acc
    = let* rest := traverse h (take m (drop k l)) in Ok (acc ++ rest).
Proof.
  induction m as [|m IH]; intros k acc Hk.
  - simpl. by rewrite app_nil_r.
  - destruct (lookup_lt_is_Some_2 l k) as [x Hx]; [lia|].
    rewrite (drop_S l x k Hx). cbn [for_range take traverse].
    unfold index at 1. rewrite Hx. cbn [bind].
    destruct (h x) as [v| |]; cbn [bind]; try done.
    rewrite IH by lia.
    destruct (traverse h (take m (drop (S k) l))); cbn [bind]; try done.
    by rewrite <- app_assoc.
Qed.

Lemma setupG1_loop {G : Type} {ops : curve.Ops G} (l : list string) :
  for_range 0 (length l)
    (fun i (pts : list G) =>
       let* s := index l i in
       let* byts := hex.DecodeString s in
       let* point := curve.SetBytes byts in
       Ok (pts ++ [point]))
    []
  = traverse decode_point l.
Proof.
  pose proof (for_range_append (decode_point (G := G)) l (length l) 0 []) as E.
  rewrite drop_0, firstn_all in E.
  transitivity (let* rest := traverse (decode_point (G := G)) l in Ok ([] ++ rest)).
  - rewrite <- E by lia. apply for_range_ext. intros i pts _.
    destruct (index l i) as [s| |]; cbn [bind]; try done.
    unfold decode_point. by destruct (hex.DecodeString s).
  - by destruct (traverse decode_point l).
Qed.


Lemma compare_loop_ok {G1 : Type} {ops1 : curve.Ops G1}
    (lag : list G1) (supplied : list string) m :
  forall k,
    (k + m <= length lag)%nat -> supplied = encode_point <$> lag ->
    for_range k m
      (fun i (_ : unit) =>
         let* p := index lag i in
         let serializedPoint := curve.Bytes p in
         let* expected := index supplied i in
         if negb (String.eqb (hex.EncodeToString serializedPoint) expected)
         then Err ErrUnexpectedLagrangeSetup
         else Ok tt)
      tt
    = Ok tt.
Proof.
  induction m as [|m IH]; intros k Hk Hs; [done|].
  destruct (lookup_lt_is_Some_2 lag k) as [p Hp]; [lia|].
  cbn [for_range]. unfold index at 1 2.
  rewrite Hp. cbn [bind]. rewrite Hs at 1. rewrite list_lookup_fmap, Hp.
  cbn [fmap option_fmap option_map bind].
  unfold encode_point at 1. rewrite String.eqb_refl. cbn [negb bind].
  apply IH; [lia|done].
Qed.


Lemma NewDomain_ScalarsPerBlob :
  exists domain,
    kzg.NewDomain api.ScalarsPerBlob = Ok domain
    /\ kzg.Cardinality domain = api.ScalarsPerBlob.
Proof.
  eexists. split.
  - apply (NewDomain_ok api.ScalarsPerBlob 12); [done|lia|reflexivity].
  - reflexivity.
Qed.







(** * Further properties of the code *)

(** Reversing the test domain of size 4 gives its reversed version. *)
Example ReverseRoots_4 : kzg.ReverseRoots testdata.domain4 = Ok testdata.domain4r.
Proof. vm_compute. reflexivity. Qed.

Lemma domain4_wf : Domain_wf testdata.domain4.
Proof.
  split; [reflexivity|reflexivity|].
  apply (bool_decide_unpack _). vm_compute. exact I.
Qed.

(** ** Searching the domain *)

Lemma findRootIndex_cases (d : kzg.Domain) (z : fr.Element) :
  kzg.Cardinality d = Z.of_nat (length (kzg.Roots d)) ->
  kzg.Cardinality d < two63 ->
  exists k,
    kzg.findRootIndex d z = Ok k
    /\ ((k = -1 /\ z ∉ kzg.Roots d)
        \/ (0 <= k < kzg.Cardinality d
            /\ kzg.Roots d !! Z.to_nat k = Some z
            /\ forall (j : nat) r,
                (j < Z.to_nat k)%nat -> kzg.Roots d !! j = Some r -> r ≠ z)).
Proof.
  intros Hcard Hfits. unfold kzg.findRootIndex.
  rewrite int_of_uint64_small by done. rewrite Hcard, Nat2Z.id.
  destruct (list_find (fun r => r = z) (kzg.Roots d)) as [[i x]|] eqn:E.
  - apply list_find_Some in E as (Hi & -> & Hbefore).
    exists (Z.of_nat i). pose proof (lookup_lt_Some _ _ _ Hi) as Hlt.
    split.
    + apply findRootIndex_loop_found; [lia|done|].
      intros j r Hj Hr. apply (Hbefore j r Hr). lia.
    + right. rewrite Nat2Z.id. split; [lia|]. split; [done|].
      intros j r Hj Hr. by apply (Hbefore j r Hr).
  - apply list_find_None in E. exists (-1). split.
    + apply findRootIndex_loop_absent; [lia|].
      intros Hin. rewrite Forall_forall in E. by apply (E z).
    + left. split; [done|].
      intros Hin. rewrite Forall_forall in E. by apply (E z).
Qed.

(** X1. On a domain with as many roots as its cardinality,
    [findRootIndex] returns -1 exactly when the point is not a root, and
    otherwise the first index at which the point occurs, which is below
    the cardinality. *)
Theorem findRootIndex_first (d : kzg.Domain) (z : fr.Element) :
  kzg.Cardinality d = Z.of_nat (length (kzg.Roots d)) ->
  kzg.Cardinality d < two63 ->
  exists k,
    kzg.findRootIndex d z = Ok k
    /\ ((k = -1 /\ z ∉ kzg.Roots d)
        \/ (0 <= k < kzg.Cardinality d
            /\ kzg.Roots d !! Z.to_nat k = Some z
            /\ forall (j : nat) r,
                (j < Z.to_nat k)%nat -> kzg.Roots d !! j = Some r -> r ≠ z)).
Proof. exact (findRootIndex_cases d z). Qed.

Lemma findRootIndex_first_witness :
  exists k,
    kzg.findRootIndex toy.domain2 toy.q1 = Ok k
    /\ ((k = -1 /\ toy.q1 ∉ kzg.Roots toy.domain2)
        \/ (0 <= k < kzg.Cardinality toy.domain2
            /\ kzg.Roots toy.domain2 !! Z.to_nat k = Some toy.q1
            /\ forall (j : nat) r,
                (j < Z.to_nat k)%nat ->
                kzg.Roots toy.domain2 !! j = Some r -> r ≠ toy.q1)).
Proof.
  apply (findRootIndex_first toy.domain2 toy.q1); reflexivity.
Defined.

(** X2. On such a domain [isInDomain] answers whether the point is one
    of the roots. *)
Theorem isInDomain_spec (d : kzg.Domain) (z : fr.Element) :
  kzg.Cardinality d = Z.of_nat (length (kzg.Roots d)) ->
  kzg.Cardinality d < two63 ->
  kzg.isInDomain d z = Ok (bool_decide (z ∈ kzg.Roots d)).
Proof.
  intros Hcard Hfits. unfold kzg.isInDomain, kzg.findRootIndex.
  rewrite int_of_uint64_small by done. rewrite Hcard, Nat2Z.id.
  destruct (list_find (fun r => r = z) (kzg.Roots d)) as [[i x]|] eqn:E.
  - apply list_find_Some in E as (Hi & -> & Hbefore).
    pose proof (lookup_lt_Some _ _ _ Hi) as Hlt.
    rewrite (findRootIndex_loop_found _ _ _ 0 i); [|lia|done|].
    2:{ intros j r Hj Hr. apply (Hbefore j r Hr). lia. }
    cbn [bind]. rewrite bool_decide_true by (by eapply list_elem_of_lookup_2).
    by destruct (Z.eqb_spec (Z.of_nat i) (-1)); [lia|].
  - apply list_find_None in E. rewrite Forall_forall in E.
    rewrite findRootIndex_loop_absent; [|lia|by intros Hin; apply (E z)].
    cbn [bind]. by rewrite bool_decide_false by (by intros Hin; apply (E z)).
Qed.

Lemma isInDomain_spec_witness :
  kzg.isInDomain toy.domain2 5 = Ok (bool_decide (5 ∈ kzg.Roots toy.domain2)).
Proof. apply (isInDomain_spec toy.domain2 5); reflexivity. Defined.

(** ** Bit reversal, continued *)

(** X3. [bitReverse] panics on every list whose length is not a power of
    two; the empty list is one of them. *)
Theorem bitReverse_not_power_of_two {K} (l : list K) :
  (forall k, 0 <= k -> Z.of_nat (length l) ≠ 2 ^ k) ->
  kzg.bitReverse l = Panic "size of list must be a power of two".
Proof.
  intros Hnot. unfold kzg.bitReverse, utils.IsPowerOfTwo.
  destruct (Z.ltb_spec 0 (Z.of_nat (length l))) as [Hpos|_]; [|done].
  destruct (Z.eqb_spec (Z.of_nat (length l))
              (2 ^ Z.log2 (Z.of_nat (length l)))) as [E|_]; [|done].
  exfalso. apply (Hnot (Z.log2 (Z.of_nat (length l)))); [|done].
  apply Z.log2_nonneg.
Qed.

Lemma not_pow2_0 (k : Z) : 0 <= k -> 0 ≠ 2 ^ k.
Proof. intros Hk. pose proof (Z.pow_pos_nonneg 2 k). lia. Qed.

Lemma not_pow2_3 (k : Z) : 0 <= k -> 3 ≠ 2 ^ k.
Proof.
  intros Hk E.
  destruct (Z.le_gt_cases 2 k) as [Hge|Hlt].
  - assert (2 ^ 2 <= 2 ^ k) by (apply Z.pow_le_mono_r; lia). lia.
  - assert (k = 0 \/ k = 1) as [->| ->] by lia; discriminate E.
Qed.

Lemma bitReverse_not_power_of_two_witness :
  kzg.bitReverse (@nil Z) = Panic "size of list must be a power of two"
  /\ kzg.bitReverse [10; 20; 30] = Panic "size of list must be a power of two".
Proof.
  split.
  - apply (bitReverse_not_power_of_two (@nil Z)). exact not_pow2_0.
  - apply (bitReverse_not_power_of_two [10; 20; 30]). exact not_pow2_3.
Defined.

Lemma bitReverse_Permutation {K} (l : list K) (k : nat) :
  (k < 63)%nat -> Z.of_nat (length l) = 2 ^ Z.of_nat k ->
  exists l', kzg.bitReverse l = Ok l' /\ l' ≡ₚ l /\ length l' = length l.
Proof.
  intros Hk Hlen.
  destruct (bitReverse_perm l k) as (l' & E & Hlen' & Hperm); [lia|done|].
  exists l'. split; [done|]. split; [|done].
  apply Permutation_inj. split; [done|].
  exists (fun i => if decide (i < length l)%nat then bitrev k i else i).
  split.
  - intros i j Hij.
    pose proof (bitrev_lt k i) as Hi. pose proof (bitrev_lt k j) as Hj.
    destruct (decide (i < length l)%nat) as [Hil|Hil];
      destruct (decide (j < length l)%nat) as [Hjl|Hjl]; try lia.
    rewrite <- (bitrev_involutive k i), <- (bitrev_involutive k j) by lia.
    by rewrite Hij.
  - intros i. destruct (decide (i < length l)%nat) as [Hil|Hil].
    + by apply Hperm.
    + rewrite !lookup_ge_None_2; [done|lia|lia].
Qed.

(** X4. On a list whose length is a power of two [bitReverse] succeeds
    and returns a permutation of the list: no element is lost or
    duplicated. *)
Theorem bitReverse_permutation {K} (l : list K) (k : nat) :
  (k < 63)%nat -> Z.of_nat (length l) = 2 ^ Z.of_nat k ->
  exists l', kzg.bitReverse l = Ok l' /\ l' ≡ₚ l /\ length l' = length l.
Proof. exact (bitReverse_Permutation l k). Qed.

Lemma bitReverse_permutation_witness :
  exists l', kzg.bitReverse [10; 20; 30; 40] = Ok l'
             /\ l' ≡ₚ [10; 20; 30; 40] /\ length l' = 4%nat.
Proof.
  apply (bitReverse_permutation [10; 20; 30; 40] 2); [lia|reflexivity].
Defined.

(** X5. [ReverseRoots] keeps a domain well-formed and keeps the two
    lists aligned: if every precomputed inverse was the inverse of the
    root at its index before the call, it still is afterwards. *)
Theorem ReverseRoots_keeps_invariants (d d' : kzg.Domain) (k : nat) :
  (k < 63)%nat ->
  Z.of_nat (length (kzg.Roots d)) = 2 ^ Z.of_nat k ->
  Domain_wf d ->
  kzg.PreComputedInverses d = fr.Inverse <$> kzg.Roots d ->
  kzg.ReverseRoots d = Ok d' ->
  Domain_wf d'
  /\ kzg.Roots d' ≡ₚ kzg.Roots d
  /\ kzg.PreComputedInverses d' = fr.Inverse <$> kzg.Roots d'.
Proof.
  intros Hk Hlen Hwf Hinv E.
  split; [by eapply ReverseRoots_wf|].
  unfold kzg.ReverseRoots in E.
  destruct (bitReverse_Permutation (kzg.Roots d) k Hk Hlen)
    as (r' & Er & Hperm & Hlr).
  destruct (bitReverse_perm (kzg.Roots d) k) as (r1 & Er1 & _ & Hr); [lia|done|].
  rewrite Er in Er1. injection Er1 as <-.
  destruct (bitReverse_perm (kzg.PreComputedInverses d) k)
    as (i' & Ei & Hli & Hi); [lia|by rewrite Hinv, length_fmap|].
  rewrite Er, Ei in E. cbn [bind] in E. injection E as <-.
  cbn [kzg.Roots kzg.PreComputedInverses]. split; [done|].
  apply list_eq. intros j. rewrite list_lookup_fmap.
  destruct (decide (j < length (kzg.Roots d))%nat) as [Hj|Hj].
  - rewrite Hi by (rewrite Hinv, length_fmap; lia).
    rewrite Hr by done. by rewrite Hinv, list_lookup_fmap.
  - rewrite !lookup_ge_None_2; [done|lia|].
    rewrite Hli, Hinv, length_fmap. lia.
Qed.

Lemma ReverseRoots_keeps_invariants_witness :
  Domain_wf testdata.domain4r
  /\ kzg.Roots testdata.domain4r ≡ₚ kzg.Roots testdata.domain4
  /\ kzg.PreComputedInverses testdata.domain4r
     = fr.Inverse <$> kzg.Roots testdata.domain4r.
Proof.
  apply (ReverseRoots_keeps_invariants testdata.domain4 testdata.domain4r 2).
  - lia.
  - reflexivity.
  - exact domain4_wf.
  - vm_compute. reflexivity.
  - exact ReverseRoots_4.
Defined.

(** ** Domain construction, continued *)

Lemma pow_order (w N t : Z) :
  0 <= N -> 0 <= t -> w ^ N mod fr.Modulus = 1 -> w ^ (N * t) mod fr.Modulus = 1.
Proof.
  intros HN Ht Hord. pose proof Modulus_pos.
  assert (2 <= fr.Modulus) by (vm_compute; discriminate).
  rewrite Z.pow_mul_r, Zpower_mod, Hord, Z.pow_1_l by lia.
  apply Z.mod_small. lia.
Qed.

Lemma two_fermat : 2 ^ (fr.Modulus - 1) mod fr.Modulus = 1.
Proof.
  pose proof (Zpow_mod_correct 2 (fr.Modulus - 1) fr.Modulus) as E.
  rewrite <- E.
  - vm_compute. reflexivity.
  - intros H. discriminate H.
Qed.

Lemma NewDomain_Ok_inv (m : Z) (d : kzg.Domain) :
  0 <= m < two64 -> kzg.NewDomain m = Ok d ->
  exists k,
    0 <= k <= 32 /\ next_pow2 m = 2 ^ k
    /\ d = kzg.mkDomain (2 ^ k) (fr.Inverse (fr.SetUint64 (2 ^ k)))
             (kzg.rootOfUnity ^ (2 ^ (32 - k)) mod fr.Modulus)
             (fr.Inverse (kzg.rootOfUnity ^ (2 ^ (32 - k)) mod fr.Modulus))
             (powers_from (kzg.rootOfUnity ^ (2 ^ (32 - k)) mod fr.Modulus)
                fr.One (Z.to_nat (2 ^ k)))
             (fr.Inverse <$>
                powers_from (kzg.rootOfUnity ^ (2 ^ (32 - k)) mod fr.Modulus)
                  fr.One (Z.to_nat (2 ^ k))).
Proof.
  intros Hm Hd.
  destruct (next_pow2_least m) as (_ & (k & Hk & Hx) & _).
  destruct (Z.le_gt_cases (next_pow2 m) (2 ^ 32)) as [Hsmall|Hbig].
  - assert (Hk32 : k <= 32).
    { rewrite Hx in Hsmall. apply (Z.pow_le_mono_r_iff 2) in Hsmall; lia. }
    exists k. split; [lia|]. split; [done|].
    rewrite (NewDomain_ok m k) in Hd by (done || lia). by injection Hd.
  - destruct (NewDomain_too_big m Hm) as [msg E]; [lia|]. congruence.
Qed.

(** X6. Every domain [NewDomain] returns is well-formed, and its roots
    are roots of unity of the order the cardinality says: the generator
    and every root, raised to the cardinality, give one. *)
Theorem NewDomain_roots_of_unity (m : Z) (d : kzg.Domain) :
  0 <= m < two64 -> kzg.NewDomain m = Ok d ->
  Domain_wf d
  /\ fr.Exp (kzg.Generator d) (kzg.Cardinality d) = fr.One
  /\ forall r, r ∈ kzg.Roots d -> fr.Exp r (kzg.Cardinality d) = fr.One.
Proof.
  intros Hm Hd. split; [by eapply NewDomain_wf|].
  destruct (NewDomain_Ok_inv m d Hm Hd) as (k & Hk & _ & ->).
  cbn [kzg.Generator kzg.Cardinality kzg.Roots].
  assert (HK : 0 < 2 ^ k) by (apply Z.pow_pos_nonneg; lia).
  assert (HE : 0 < 2 ^ (32 - k)) by (apply Z.pow_pos_nonneg; lia).
  assert (HEK : forall t, 2 ^ (32 - k) * t * 2 ^ k = 2 ^ 32 * t).
  { intros t. replace (2 ^ 32) with (2 ^ (32 - k) * 2 ^ k); [ring|].
    rewrite <- Z.pow_add_r by lia. f_equal. lia. }
  assert (Hpow : forall t, 0 <= t ->
            fr.Exp (kzg.rootOfUnity ^ (2 ^ (32 - k) * t) mod fr.Modulus) (2 ^ k)
            = fr.One).
  { intros t Ht. unfold fr.Exp.
    destruct (Z.ltb_spec (2 ^ k) 0) as [?|_]; [lia|].
    rewrite Zpow_mod_correct by (intros H; discriminate H).
    rewrite <- Zpower_mod by apply Modulus_pos.
    rewrite <- Z.pow_mul_r by nia.
    rewrite HEK. apply pow_order; [apply Z.pow_nonneg; lia|done|].
    exact rootOfUnity_order. }
  split.
  - rewrite <- (Z.mul_1_r (2 ^ (32 - k))). apply Hpow. lia.
  - intros r Hr. apply list_elem_of_lookup in Hr as [i Hi].
    change fr.One with (kzg.rootOfUnity ^ 0 mod fr.Modulus) in Hi at 1.
    apply powers_from_pow in Hi; [|lia|lia].
    rewrite Z.add_0_l in Hi. subst r. apply Hpow. lia.
Qed.

Lemma NewDomain_roots_of_unity_witness :
  Domain_wf toy.domain2
  /\ fr.Exp (kzg.Generator toy.domain2) (kzg.Cardinality toy.domain2) = fr.One
  /\ forall r, r ∈ kzg.Roots toy.domain2 ->
               fr.Exp r (kzg.Cardinality toy.domain2) = fr.One.
Proof.
  apply (NewDomain_roots_of_unity 2 toy.domain2).
  - done.
  - exact NewDomain_2.
Defined.

(** X7. In a domain built by [NewDomain] the precomputed inverses are
    real inverses: the generator times [GeneratorInv] is one, and the
    cardinality, as a field element, times [CardinalityInv] is one. *)
Theorem NewDomain_inverses (m : Z) (d : kzg.Domain) :
  0 <= m < two64 -> kzg.NewDomain m = Ok d ->
  fr.Mul (kzg.Generator d) (kzg.GeneratorInv d) = fr.One
  /\ fr.Mul (fr.SetUint64 (kzg.Cardinality d)) (kzg.CardinalityInv d) = fr.One.
Proof.
  intros Hm Hd.
  destruct (NewDomain_Ok_inv m d Hm Hd) as (k & Hk & _ & ->).
  cbn [kzg.Generator kzg.GeneratorInv kzg.Cardinality kzg.CardinalityInv].
  split.
  - apply root_Inverse. apply Z.pow_nonneg. lia.
  - unfold fr.SetUint64. pose proof Modulus_pos.
    apply (pow_Inverse 2 (fr.Modulus - 1) 1); [lia|lia|exact two_fermat|lia|lia].
Qed.

Lemma NewDomain_inverses_witness :
  fr.Mul (kzg.Generator toy.domain2) (kzg.GeneratorInv toy.domain2) = fr.One
  /\ fr.Mul (fr.SetUint64 (kzg.Cardinality toy.domain2))
       (kzg.CardinalityInv toy.domain2) = fr.One.
Proof.
  apply (NewDomain_inverses 2 toy.domain2).
  - done.
  - exact NewDomain_2.
Defined.



(** X9. Evaluating a polynomial over a domain built by [NewDomain] at
    the root of index [i] returns the polynomial's entry at [i]. *)
Theorem NewDomain_evaluate_at_root (m : Z) (d : kzg.Domain)
    (poly : kzg.Polynomial) (i : nat) (r : fr.Element) :
  0 <= m < two64 -> kzg.NewDomain m = Ok d ->
  kzg.Cardinality d = Z.of_nat (length poly) ->
  kzg.Roots d !! i = Some r ->
  exists v, poly !! i = Some v /\ kzg.EvaluateLagrangePolynomial d poly r = Ok v.
Proof.
  intros Hm Hd Hlen Hr.
  pose proof (NewDomain_wf m d Hm Hd) as Hwf.
  destruct (evaluate_in_domain d poly r i Hwf Hlen Hr) as (v & Hv & E).
  exists v. split; [done|].
  unfold kzg.EvaluateLagrangePolynomial. by rewrite E.
Qed.

Lemma NewDomain_evaluate_at_root_witness :
  exists v, [10; 20] !! 1%nat = Some v
            /\ kzg.EvaluateLagrangePolynomial toy.domain2 [10; 20] toy.q1 = Ok v.
Proof.
  apply (NewDomain_evaluate_at_root 2 toy.domain2 [10; 20] 1).
  - done.
  - exact NewDomain_2.
  - reflexivity.
  - reflexivity.
Defined.

(** ** Lagrange evaluation, continued *)

Lemma Add_shuffle (a b c e : fr.Element) :
  fr.Add (fr.Add a b) (fr.Add c e) = fr.Add (fr.Add a c) (fr.Add b e).
Proof.
  unfold fr.Add. rewrite <- !Zplus_mod. f_equal. lia.
Qed.

Lemma Mul_Add_distr (a b r s : fr.Element) :
  fr.Mul (fr.Mul (fr.Add a b) r) s
  = fr.Add (fr.Mul (fr.Mul a r) s) (fr.Mul (fr.Mul b r) s).
Proof.
  rewrite <- !Mul_assoc. generalize (fr.Mul r s). intros m.
  unfold fr.Mul, fr.Add.
  rewrite Zmult_mod_idemp_l, <- Zplus_mod. f_equal. ring.
Qed.

Lemma Sum_zip_Add (z : fr.Element) (p1 : list fr.Element) :
  forall (p2 roots : list fr.Element),
    length p1 = length p2 ->
    fr.Sum (zip_with (fun p r => fr.Div (fr.Mul p r) (fr.Sub z r))
              (zip_with fr.Add p1 p2) roots)
    = fr.Add
        (fr.Sum (zip_with (fun p r => fr.Div (fr.Mul p r) (fr.Sub z r)) p1 roots))
        (fr.Sum (zip_with (fun p r => fr.Div (fr.Mul p r) (fr.Sub z r)) p2 roots)).
Proof.
  induction p1 as [|a p1 IH]; intros [|b p2] roots Hlen; try discriminate.
  - reflexivity.
  - destruct roots as [|r roots]; [reflexivity|].
    cbn [zip_with]. unfold fr.Sum in *. cbn [foldr].
    rewrite IH by (simpl in Hlen; lia).
    unfold fr.Div. rewrite Mul_Add_distr. apply Add_shuffle.
Qed.

Lemma barycentric_Add (d : kzg.Domain) (p1 p2 : kzg.Polynomial) (z : fr.Element) :
  length p1 = length p2 ->
  barycentric d (zip_with fr.Add p1 p2) z
  = fr.Add (barycentric d p1 z) (barycentric d p2 z).
Proof.
  intros Hlen. unfold barycentric.
  rewrite Sum_zip_Add by done. apply Mul_Add_distr.
Qed.

(** X10. Evaluation is additive in the polynomial: over a well-formed
    domain, at any point, the value of the entrywise sum of two
    polynomials is the sum of their values. *)
Theorem EvaluateLagrangePolynomial_additive (d : kzg.Domain)
    (p1 p2 : kzg.Polynomial) (z : fr.Element) :
  Domain_wf d ->
  kzg.Cardinality d = Z.of_nat (length p1) ->
  kzg.Cardinality d = Z.of_nat (length p2) ->
  exists v1 v2,
    kzg.EvaluateLagrangePolynomial d p1 z = Ok v1
    /\ kzg.EvaluateLagrangePolynomial d p2 z = Ok v2
    /\ kzg.EvaluateLagrangePolynomial d (zip_with fr.Add p1 p2) z
       = Ok (fr.Add v1 v2).
Proof.
  intros Hwf H1 H2. unfold kzg.Polynomial in *.
  assert (H12 : kzg.Cardinality d = Z.of_nat (length (zip_with fr.Add p1 p2))).
  { rewrite length_zip_with. lia. }
  unfold kzg.EvaluateLagrangePolynomial.
  destruct (decide (z ∈ kzg.Roots d)) as [Hin|Hout].
  - apply list_elem_of_lookup_1 in Hin as [i Hi].
    destruct (evaluate_in_domain d p1 z i Hwf H1 Hi) as (v1 & Hv1 & ->).
    destruct (evaluate_in_domain d p2 z i Hwf H2 Hi) as (v2 & Hv2 & ->).
    destruct (evaluate_in_domain d _ z i Hwf H12 Hi) as (v & Hv & ->).
    exists v1, v2. split; [done|]. split; [done|].
    unfold kzg.Polynomial in *.
    rewrite lookup_zip_with, Hv1, Hv2 in Hv. cbn in Hv. by injection Hv as <-.
  - rewrite !evaluate_outside_domain by done. cbn [bind fst].
    eexists _, _. split; [done|]. split; [done|].
    rewrite barycentric_Add by lia. done.
Qed.

Lemma EvaluateLagrangePolynomial_additive_witness :
  exists v1 v2,
    kzg.EvaluateLagrangePolynomial toy.domain2 [1; 2] 5 = Ok v1
    /\ kzg.EvaluateLagrangePolynomial toy.domain2 [3; 4] 5 = Ok v2
    /\ kzg.EvaluateLagrangePolynomial toy.domain2 (zip_with fr.Add [1; 2] [3; 4]) 5
       = Ok (fr.Add v1 v2).
Proof.
  apply (EvaluateLagrangePolynomial_additive toy.domain2 [1; 2] [3; 4] 5);
    [exact domain2_wf|reflexivity|reflexivity].
Defined.

Lemma foldr_add_perm (l l' : list Z) :
  l ≡ₚ l' -> foldr Z.add 0 l = foldr Z.add 0 l'.
Proof.
  induction 1 as [|x l l' _ IH|x y l|l l' l'' _ IH1 _ IH2]; simpl; lia.
Qed.

Lemma Sum_perm (l l' : list fr.Element) : l ≡ₚ l' -> fr.Sum l = fr.Sum l'.
Proof. intros Hp. rewrite !Sum_mod. by rewrite (foldr_add_perm l l'). Qed.

(** Lists reindexed by the same involution zip to a permutation. *)
Lemma zip_with_reindex {A B C} (f : A -> B -> C) (p : nat -> nat) (n : nat)
    (l1 l1' : list A) (l2 l2' : list B) :
  length l1 = n -> length l2 = n -> length l1' = n -> length l2' = n ->
  (forall i, (i < n)%nat -> (p i < n)%nat /\ p (p i) = i) ->
  (forall j, (j < n)%nat -> l1' !! j = l1 !! p j) ->
  (forall j, (j < n)%nat -> l2' !! j = l2 !! p j) ->
  zip_with f l1' l2' ≡ₚ zip_with f l1 l2.
Proof.
  intros Hn1 Hn2 Hn1' Hn2' Hp H1 H2.
  apply Permutation_inj. split; [rewrite !length_zip_with; lia|].
  exists (fun i => if decide (i < n)%nat then p i else i). split.
  - intros i j Hij.
    destruct (decide (i < n)%nat) as [Hi|Hi];
      destruct (decide (j < n)%nat) as [Hj|Hj].
    + destruct (Hp i Hi) as [_ <-]. destruct (Hp j Hj) as [_ <-]. by rewrite Hij.
    + destruct (Hp i Hi). lia.
    + destruct (Hp j Hj). lia.
    + done.
  - intros i. rewrite !lookup_zip_with.
    destruct (decide (i < n)%nat) as [Hi|Hi].
    + by rewrite H1, H2.
    + rewrite (lookup_ge_None_2 l1'), (lookup_ge_None_2 l1) by lia. done.
Qed.

(** X11. Bit-reversing the domain and the polynomial together does not
    change the evaluation: over a well-formed domain of power-of-two
    size, [EvaluateLagrangePolynomial] on the reversed domain and the
    reversed polynomial returns what it returns on the originals. *)
Theorem EvaluateLagrangePolynomial_reversed (d d' : kzg.Domain)
    (poly poly' : kzg.Polynomial) (z : fr.Element) (k : nat) :
  (k < 63)%nat ->
  Z.of_nat (length (kzg.Roots d)) = 2 ^ Z.of_nat k ->
  Domain_wf d ->
  kzg.Cardinality d = Z.of_nat (length poly) ->
  kzg.ReverseRoots d = Ok d' ->
  kzg.bitReverse poly = Ok poly' ->
  kzg.EvaluateLagrangePolynomial d' poly' z
  = kzg.EvaluateLagrangePolynomial d poly z.
Proof.
  intros Hk Hlen Hwf Hpoly Hrev Hbr. unfold kzg.Polynomial in *.
  pose proof (ReverseRoots_wf d d' k Hk Hlen Hwf Hrev) as Hwf'.
  pose proof Hwf as [Hcard Hfits Hnodup].
  assert (Hlp : Z.of_nat (length poly) = 2 ^ Z.of_nat k) by lia.
  destruct (bitReverse_perm poly k) as (q & Eq & Hlq & Hq); [lia|done|].
  rewrite Hbr in Eq. injection Eq as <-.
  destruct (bitReverse_perm (kzg.Roots d) k) as (r' & Er & Hlr & Hr); [lia|done|].
  destruct (bitReverse_Permutation (kzg.Roots d) k Hk Hlen)
    as (r2 & Er2 & Hperm & _).
  rewrite Er in Er2. injection Er2 as <-.
  unfold kzg.ReverseRoots in Hrev. rewrite Er in Hrev. cbn [bind] in Hrev.
  destruct (kzg.bitReverse (kzg.PreComputedInverses d)) as [i'| |];
    try discriminate.
  injection Hrev as <-.
  assert (Hpoly' : kzg.Cardinality d = Z.of_nat (length poly')) by lia.
  assert (Hbij : forall i, (i < length poly)%nat ->
            (bitrev k i < length poly)%nat /\ bitrev k (bitrev k i) = i).
  { intros i Hi. pose proof (bitrev_lt k i). split; [lia|].
    apply bitrev_involutive. lia. }
  unfold kzg.EvaluateLagrangePolynomial.
  destruct (decide (z ∈ kzg.Roots d)) as [Hin|Hout].
  - apply list_elem_of_lookup_1 in Hin as [i Hi].
    pose proof (lookup_lt_Some _ _ _ Hi) as Hil.
    destruct (Hbij i) as [Hpi Hppi]; [lia|].
    destruct (evaluate_in_domain d poly z i Hwf Hpoly Hi) as (v & Hv & ->).
    destruct (evaluate_in_domain _ poly' z (bitrev k i) Hwf' Hpoly')
      as (v' & Hv' & ->).
    { cbn [kzg.Roots]. rewrite Hr by lia. by rewrite Hppi. }
    unfold kzg.Polynomial in *.
    rewrite Hq, Hppi, Hv in Hv' by lia. by injection Hv' as <-.
  - rewrite (evaluate_outside_domain d poly z) by done.
    rewrite evaluate_outside_domain; [|done|done|].
    2:{ cbn [kzg.Roots]. by rewrite Hperm. }
    cbn [bind fst]. f_equal. unfold barycentric.
    cbn [kzg.Roots kzg.Cardinality kzg.CardinalityInv].
    f_equal. f_equal. apply Sum_perm.
    apply (zip_with_reindex _ (bitrev k) (length poly)); try done; try lia.
    + intros j Hj. apply Hr. lia.
Qed.

Lemma EvaluateLagrangePolynomial_reversed_witness :
  kzg.EvaluateLagrangePolynomial testdata.domain4r [10; 30; 20; 40] 7
  = kzg.EvaluateLagrangePolynomial testdata.domain4 [10; 20; 30; 40] 7.
Proof.
  apply (EvaluateLagrangePolynomial_reversed testdata.domain4 testdata.domain4r
           [10; 20; 30; 40] [10; 30; 20; 40] 7 2).
  - lia.
  - reflexivity.
  - exact domain4_wf.
  - reflexivity.
  - exact ReverseRoots_4.
  - reflexivity.
Defined.

(** X20. Over a well-formed domain and a polynomial of matching length,
    the index [evaluateLagrangePolynomial] returns beside the value is
    the one [findRootIndex] finds: the position of the point among the
    roots, or -1, and the value is the one the exported evaluator
    returns. *)
Theorem evaluateLagrangePolynomial_index (d : kzg.Domain)
    (poly : kzg.Polynomial) (z : fr.Element) :
  Domain_wf d -> kzg.Cardinality d = Z.of_nat (length poly) ->
  exists v k,
    kzg.evaluateLagrangePolynomial d poly z = Ok (v, k)
    /\ kzg.findRootIndex d z = Ok k
    /\ kzg.EvaluateLagrangePolynomial d poly z = Ok v
    /\ (k = -1 <-> z ∉ kzg.Roots d).
Proof.
  intros Hwf Hlen. unfold kzg.EvaluateLagrangePolynomial.
  destruct (decide (z ∈ kzg.Roots d)) as [Hin|Hout].
  - pose proof Hin as Hin'. apply list_elem_of_lookup_1 in Hin as [i Hi].
    destruct (evaluate_in_domain d poly z i Hwf Hlen Hi) as (v & Hv & E).
    exists v, (Z.of_nat i). rewrite E.
    split; [done|]. split; [by apply findRootIndex_found|]. split; [done|].
    split; [lia|done].
  - exists (barycentric d poly z), (-1).
    rewrite evaluate_outside_domain by done.
    split; [done|]. split; [by apply findRootIndex_absent|]. done.
Qed.

Lemma evaluateLagrangePolynomial_index_witness :
  exists v k,
    kzg.evaluateLagrangePolynomial toy.domain2 [10; 20] toy.q1 = Ok (v, k)
    /\ kzg.findRootIndex toy.domain2 toy.q1 = Ok k
    /\ kzg.EvaluateLagrangePolynomial toy.domain2 [10; 20] toy.q1 = Ok v
    /\ (k = -1 <-> toy.q1 ∉ kzg.Roots toy.domain2).
Proof.
  apply (evaluateLagrangePolynomial_index toy.domain2 [10; 20] toy.q1);
    [exact domain2_wf|reflexivity].
Defined.

(** ** The batched evaluator *)

Lemma for_range_one {St} (k : nat) (body : nat -> St -> result St) (s : St) :
  for_range k 1 body s = body k s.
Proof. cbn [for_range]. by destruct (body k s). Qed.

(** X12. On a single pair whose point lies outside a well-formed domain
    the batched evaluator agrees with the single-point evaluator: both
    return the barycentric value. *)
Theorem EvaluateLagrangePolynomials_single_pair (d : kzg.Domain)
    (poly : kzg.Polynomial) (z : fr.Element) :
  Domain_wf d -> kzg.Cardinality d = Z.of_nat (length poly) ->
  z ∉ kzg.Roots d ->
  kzg.EvaluateLagrangePolynomial d poly z = Ok (barycentric d poly z)
  /\ kzg.EvaluateLagrangePolynomials d [poly] [z] = Ok [barycentric d poly z].
Proof.
  intros Hwf Hlen Hz. pose proof Hwf as [Hcard Hfits _].
  assert (Hroots : length (kzg.Roots d) = length poly) by lia.
  split.
  { unfold kzg.EvaluateLagrangePolynomial. by rewrite evaluate_outside_domain. }
  unfold kzg.EvaluateLagrangePolynomials.
  change (length [poly]) with 1%nat. change (length [z]) with 1%nat.
  rewrite !for_range_one.
  change (index [z] 0) with (Ok z). cbn [bind].
  rewrite (findRootIndex_absent d z) by done. cbn [bind].
  change (store (replicate 1 0) 0 (-1)) with (Ok [-1]). cbn [bind].
  change (length [-1]) with 1%nat. rewrite !for_range_one.
  change (index [-1] 0) with (Ok (-1)). cbn [bind].
  change (-1 =? -1) with true. cbv iota. cbn [bind].
  change (0 + 1) with 1. rewrite Z.mul_1_r.
  assert (two63 < two64) by reflexivity.
  rewrite Z.mod_small by lia.
  unfold make. destruct (Z.ltb_spec (kzg.Cardinality d) two63) as [_|?]; [|lia].
  cbn [bind]. rewrite !for_range_one.
  change (index [z] 0) with (Ok z). cbn [bind Nat.add].
  rewrite int_of_uint64_small by done. rewrite Hcard, Nat2Z.id.
  rewrite denominators_loop. cbn [bind].
  rewrite for_range_one.
  change (index [z] 0) with (Ok z). change (index [poly] 0) with (Ok poly).
  change (index [-1] 0) with (Ok (-1)). cbn [bind].
  change (negb (-1 =? -1)) with false. cbv iota.
  rewrite (for_range_ext _
             (fun i result =>
                let* p := index poly i in
                let* r := index (kzg.Roots d) i in
                let num := fr.Mul p r in
                let* inv := index (fr.BatchInvert (fr.Sub z <$> kzg.Roots d)) i in
                let div := fr.Mul num inv in
                Ok (fr.Add result div))).
  2:{ intros i acc _. by rewrite Nat.add_0_r. }
  rewrite Hroots.
  rewrite (accumulate_loop poly (kzg.Roots d) _ (length poly) 0 fr.Zero);
    [|lia|done|].
  2:{ unfold fr.BatchInvert. by rewrite !length_fmap. }
  cbn [bind]. rewrite drop_0, terms_eq.
  rewrite take_ge by (rewrite length_zip_with; lia).
  rewrite foldl_Add_Sum, scale_barycentric by done.
  reflexivity.
Qed.

Lemma EvaluateLagrangePolynomials_single_pair_witness :
  kzg.EvaluateLagrangePolynomial toy.domain2 [1; 2] 2
  = Ok (barycentric toy.domain2 [1; 2] 2)
  /\ kzg.EvaluateLagrangePolynomials toy.domain2 [[1; 2]] [2]
     = Ok [barycentric toy.domain2 [1; 2] 2].
Proof.
  apply (EvaluateLagrangePolynomials_single_pair toy.domain2 [1; 2] 2);
    [exact domain2_wf|reflexivity|].
  apply (bool_decide_unpack _). vm_compute. exact I.
Defined.

Lemma traverse_findRootIndex_found (d : kzg.Domain) (zs : list fr.Element) :
  Domain_wf d -> Forall (fun z => z ∈ kzg.Roots d) zs ->
  exists ks, traverse (kzg.findRootIndex d) zs = Ok ks
             /\ Forall (fun k => k ≠ -1) ks.
Proof.
  intros Hwf. induction 1 as [|z zs Hz _ (ks & IH & Hks)].
  - by exists [].
  - apply list_elem_of_lookup_1 in Hz as [i Hi].
    exists (Z.of_nat i :: ks). cbn [traverse].
    rewrite (findRootIndex_found d z i) by done. cbn [bind]. rewrite IH.
    split; [done|]. constructor; [lia|done].
Qed.

Lemma count_loop_none (ks : list Z) m :
  forall k acc,
    Forall (fun k => k ≠ -1) ks -> (k + m <= length ks)%nat ->
    for_range k m
      (fun i num =>
         let* k := index ks i in
         if k =? -1 then Ok (num + 1) else Ok num)
      acc
    = Ok acc.
Proof.
  induction m as [|m IH]; intros k acc Hks Hk; [done|].
  destruct (lookup_lt_is_Some_2 ks k) as [v Hv]; [lia|].
  cbn [for_range]. unfold index at 1. rewrite Hv. cbn [bind].
  pose proof (proj1 (Forall_lookup _ ks) Hks k v Hv) as Hne.
  destruct (Z.eqb_spec v (-1)) as [?|_]; [done|]. cbn [bind].
  apply IH; [done|lia].
Qed.

(** X13. Whenever every evaluation point lies in a well-formed,
    non-empty domain and there is at least one pair, the batched
    evaluator panics with an index out of range: [denom] is allocated
    empty, and the loop that fills it writes to it all the same. *)
Theorem EvaluateLagrangePolynomials_all_in_domain (d : kzg.Domain)
    (polys : list kzg.Polynomial) (evalPoints : list fr.Element) :
  Domain_wf d -> 0 < kzg.Cardinality d ->
  polys ≠ [] -> length polys = length evalPoints ->
  Forall (fun z => z ∈ kzg.Roots d) evalPoints ->
  kzg.EvaluateLagrangePolynomials d polys evalPoints = Panic index_out_of_range.
Proof.
  intros Hwf Hpos Hne Hlen Hin. pose proof Hwf as [Hcard Hfits _].
  unfold kzg.EvaluateLagrangePolynomials. rewrite Hlen.
  rewrite (for_range_fill_all (kzg.findRootIndex d) evalPoints 0).
  destruct (traverse_findRootIndex_found d evalPoints Hwf Hin) as (ks & -> & Hks).
  cbn [bind].
  rewrite (count_loop_none ks (length ks) 0 0) by (done || lia). cbn [bind].
  rewrite Z.mul_0_r. change (make fr.Zero (0 mod two64)) with (Ok (@nil fr.Element)).
  cbn [bind].
  destruct evalPoints as [|z rest].
  { destruct polys; [done|discriminate]. }
  cbn [length for_range]. change (index (z :: rest) 0) with (Ok z). cbn [bind].
  rewrite int_of_uint64_small by done.
  destruct (Z.to_nat (kzg.Cardinality d)) as [|c] eqn:Ec; [lia|].
  destruct (lookup_lt_is_Some_2 (kzg.Roots d) 0) as [r Hr]; [lia|].
  cbn [for_range]. unfold index at 1. rewrite Hr. cbn [bind].
  reflexivity.
Qed.

Lemma EvaluateLagrangePolynomials_all_in_domain_witness :
  kzg.EvaluateLagrangePolynomials testdata.domain4
    [[10; 20; 30; 40]; [1; 2; 3; 4]] [toy.q1; 1]
  = Panic index_out_of_range.
Proof.
  apply EvaluateLagrangePolynomials_all_in_domain.
  - exact domain4_wf.
  - reflexivity.
  - discriminate.
  - reflexivity.
  - apply (bool_decide_unpack _). vm_compute. exact I.
Defined.

Lemma findRootIndex_total (d : kzg.Domain) (z : fr.Element) :
  kzg.Cardinality d = Z.of_nat (length (kzg.Roots d)) ->
  kzg.Cardinality d < two63 ->
  exists k, kzg.findRootIndex d z = Ok k.
Proof.
  intros Hcard Hfits.
  destruct (findRootIndex_cases d z Hcard Hfits) as (k & E & _). by exists k.
Qed.

Lemma fill_loop_short {A B} (h : A -> result B) (l : list A) m :
  forall k (acc : list B),
    (forall x, exists v, h x = Ok v) ->
    (k <= length l < k + m)%nat -> (k + m <= length acc)%nat ->
    for_range k m
      (fun i acc => let* x := index l i in let* v := h x in store acc i v)
      acc
    = Panic index_out_of_range.
Proof.
  induction m as [|m IH]; intros k acc Hh Hk Hacc; [lia|].
  cbn [for_range]. unfold index at 1.
  destruct (l !! k) as [x|] eqn:Hx.
  - cbn [bind]. destruct (Hh x) as [v ->]. cbn [bind].
    unfold store at 1. rewrite decide_True by lia. cbn [bind].
    apply lookup_lt_Some in Hx.
    apply IH; [done|lia|rewrite length_insert; lia].
  - done.
Qed.

(** X14. The batched evaluator does not check that there are as many
    points as polynomials: with fewer points it panics with an index out
    of range while classifying the points. *)
Theorem EvaluateLagrangePolynomials_fewer_points (d : kzg.Domain)
    (polys : list kzg.Polynomial) (evalPoints : list fr.Element) :
  kzg.Cardinality d = Z.of_nat (length (kzg.Roots d)) ->
  kzg.Cardinality d < two63 ->
  (length evalPoints < length polys)%nat ->
  kzg.EvaluateLagrangePolynomials d polys evalPoints = Panic index_out_of_range.
Proof.
  intros Hcard Hfits Hlt. unfold kzg.EvaluateLagrangePolynomials.
  rewrite (fill_loop_short (kzg.findRootIndex d) evalPoints); [done| |lia|].
  - intros z. by apply findRootIndex_total.
  - rewrite length_replicate. lia.
Qed.

Lemma EvaluateLagrangePolynomials_fewer_points_witness :
  kzg.EvaluateLagrangePolynomials toy.domain2 [[1; 2]; [3; 4]] [7]
  = Panic index_out_of_range.
Proof.
  apply EvaluateLagrangePolynomials_fewer_points; [reflexivity|reflexivity|].
  simpl. lia.
Defined.

(** ** MultiExp, continued *)

Lemma msm_app {G : Type} {ops : curve.Ops G} `{!curve.Laws G}
    (l1 l2 : list (fr.Element * G)) :
  msm (l1 ++ l2) = curve.add (msm l1) (msm l2).
Proof.
  induction l1 as [|x l1 IH].
  - symmetry. apply curve.add_zero_l.
  - cbn [app]. rewrite !msm_cons, IH. apply curve.add_assoc.
Qed.

(** X15. [MultiExp] over concatenated inputs is the sum of the results
    on the parts; the empty input, which the function special-cases, is
    neutral for this. *)
Theorem MultiExp_app {G : Type} {ops : curve.Ops G} {laws : curve.Laws G}
    (s1 s2 : list fr.Element) (p1 p2 : list G) :
  length s1 = length p1 -> length s2 = length p2 ->
  exists a b,
    multiexp.MultiExp s1 p1 = Ok a
    /\ multiexp.MultiExp s2 p2 = Ok b
    /\ multiexp.MultiExp (s1 ++ s2) (p1 ++ p2) = Ok (curve.add a b).
Proof.
  intros H1 H2. eexists _, _.
  split; [by apply MultiExp_same_length|].
  split; [by apply MultiExp_same_length|].
  rewrite MultiExp_same_length by (rewrite !length_app; lia).
  rewrite (zip_with_app pair s1 s2 p1 p2 H1). by rewrite msm_app.
Qed.

Lemma MultiExp_app_witness :
  exists a b,
    multiexp.MultiExp (ops := toy.ops) [2; 3] [5; 7] = Ok a
    /\ multiexp.MultiExp (ops := toy.ops) [4] [11] = Ok b
    /\ multiexp.MultiExp (ops := toy.ops) ([2; 3] ++ [4]) ([5; 7] ++ [11])
       = Ok (a + b).
Proof.
  apply (MultiExp_app (laws := toy_laws) [2; 3] [4] [5; 7] [11]); reflexivity.
Defined.

(** ** Serialisation, continued *)

Lemma deserialisePolys_traverse (serPolys : list context.SerialisedPoly) :
  context.deserialisePolys serPolys
  = match traverse decode_poly serPolys with
    | Ok polys => Ok (polys, None)
    | Err e => Ok ([], Some e)
    | Panic s => Panic s
    end.
Proof.
  unfold context.deserialisePolys.
  pose proof (for_range_append decode_poly serPolys (length serPolys) 0 []) as E.
  rewrite drop_0, firstn_all in E.
  assert (E' : for_range 0 (length serPolys)
                 (fun i polys =>
                    let* serPoly := index serPolys i in
                    let* pe := context.deserialisePoly serPoly in
                    match pe.2 with
                    | Some e => Err e
                    | None => Ok (polys ++ [pe.1])
                    end) []
               = traverse decode_poly serPolys).
  { transitivity (let* rest := traverse decode_poly serPolys in Ok ([] ++ rest)).
    - rewrite <- E by lia. apply for_range_ext. intros i polys _.
      destruct (index serPolys i) as [sp| |]; cbn [bind]; try done.
      unfold decode_poly.
      destruct (context.deserialisePoly sp) as [[p [e|]]| |]; done.
    - by destruct (traverse decode_poly serPolys). }
  by rewrite E'.
Qed.

Lemma decode_poly_Ok (sp : context.SerialisedPoly) (p : kzg.Polynomial) :
  decode_poly sp = Ok p <-> context.deserialisePoly sp = Ok (p, None).
Proof.
  unfold decode_poly.
  destruct (context.deserialisePoly sp) as [[p' [e|]]| |]; cbn; split;
    intros H; try discriminate; by injection H as ->.
Qed.

Lemma decode_poly_Err (sp : context.SerialisedPoly) (p : kzg.Polynomial) (e : error) :
  context.deserialisePoly sp = Ok (p, Some e) -> decode_poly sp = Err e.
Proof. unfold decode_poly. by intros ->. Qed.

(** X16. [deserialisePolys] decodes the blobs in order and stops at the
    first one that fails, returning its error and a nil list, whatever
    follows; it returns all the decoded polynomials, in order, exactly
    when every blob decodes. *)
Theorem deserialisePolys_fail_fast :
  (forall (pre post : list context.SerialisedPoly) (sp : context.SerialisedPoly)
          (p : kzg.Polynomial) (e : error),
      Forall (fun s => exists q, context.deserialisePoly s = Ok (q, None)) pre ->
      context.deserialisePoly sp = Ok (p, Some e) ->
      context.deserialisePolys (pre ++ sp :: post) = Ok ([], Some e))
  /\ (forall (serPolys : list context.SerialisedPoly) (polys : list kzg.Polynomial),
        Forall2 (fun s q => context.deserialisePoly s = Ok (q, None))
          serPolys polys
        <-> context.deserialisePolys serPolys = Ok (polys, None)).
Proof.
  split.
  - intros pre post sp p e Hpre Hsp. rewrite deserialisePolys_traverse.
    rewrite (traverse_app_Err _ _ _ _ e); [done| |by eapply decode_poly_Err].
    eapply Forall_impl; [exact Hpre|]. intros s [q Hq]. exists q.
    by apply decode_poly_Ok.
  - intros serPolys polys. rewrite deserialisePolys_traverse. split.
    + intros Hall. rewrite (traverse_Forall2 _ _ polys); [done|].
      eapply Forall2_impl; [exact Hall|]. intros s q Hq. by apply decode_poly_Ok.
    + destruct (traverse decode_poly serPolys) as [vs| |] eqn:Et;
        try discriminate.
      intros [= <-]. apply traverse_Ok_inv in Et.
      eapply Forall2_impl; [exact Et|]. intros s q Hq. by apply decode_poly_Ok.
Qed.

Lemma deserialisePolys_fail_fast_witness :
  context.deserialisePolys
    ([[le_bytes 32 7]] ++ [le_bytes 32 1; le_bytes 32 fr.Modulus]
       :: [[le_bytes 32 2]])
  = Ok ([], Some ErrScalarNotCanonical)
  /\ context.deserialisePolys [[le_bytes 32 7]; [le_bytes 32 1; le_bytes 32 2]]
     = Ok ([[7]; [1; 2]], None).
Proof.
  destruct deserialisePolys_fail_fast as [Hfail Hok].
  split.
  - apply (Hfail _ _ _ []).
    + repeat constructor. exists [7]. vm_compute. reflexivity.
    + vm_compute. reflexivity.
  - apply Hok. repeat constructor; vm_compute; reflexivity.
Defined.

Lemma traverse_fmap_Ok {A B} (h : A -> result B) (f : B -> A) (l : list B) :
  Forall (fun p => h (f p) = Ok p) l -> traverse h (f <$> l) = Ok l.
Proof.
  induction 1 as [|p l Hp _ IH]; [done|].
  cbn [fmap list_fmap traverse]. rewrite Hp. cbn [bind].
  change (list_fmap B A f l) with (f <$> l). by rewrite IH.
Qed.

(** X17. Serialising commitments and decoding them again gives the
    commitments back, provided each point's compressed encoding decodes
    to the point. *)
Theorem deserialiseComms_serialiseCommitments {G1 : Type} {ops : curve.Ops G1}
    (comms : list G1) :
  Forall (fun p => curve.SetBytes (curve.Bytes p) = Ok p) comms ->
  context.deserialiseComms (context.serialiseCommitments comms)
  = Ok (comms, None).
Proof.
  intros Hall. rewrite deserialiseComms_traverse.
  unfold context.serialiseCommitments.
  by rewrite (traverse_fmap_Ok curve.SetBytes curve.Bytes comms).
Qed.

Lemma deserialiseComms_serialiseCommitments_witness :
  context.deserialiseComms (ops := toy.ops)
    (context.serialiseCommitments (ops := toy.ops) [0; 1; 258])
  = Ok ([0; 1; 258], None).
Proof.
  apply (deserialiseComms_serialiseCommitments (ops := toy.ops)).
  repeat constructor; vm_compute; reflexivity.
Defined.

(** ** Trusted setup, continued *)

Lemma setupG2_loop_traverse {G : Type} {ops : curve.Ops G} (l : list string) m :
  forall k,
    (k + m <= length l)%nat ->
    for_range k m
      (fun i (_ : unit) =>
         let* s := index l i in
         let* byts := hex.DecodeString s in
         let* point := curve.SetBytes (G := G) byts in
         Ok tt)
      tt
    = let* _ := traverse (decode_point (G := G)) (take m (drop k l)) in Ok tt.
Proof.
  induction m as [|m IH]; intros k Hk; [done|].
  destruct (lookup_lt_is_Some_2 l k) as [s Hs]; [lia|].
  rewrite (drop_S l s k Hs). cbn [for_range take traverse].
  unfold index at 1. rewrite Hs. cbn [bind]. unfold decode_point at 1.
  destruct (hex.DecodeString s) as [byts| |]; cbn [bind]; try done.
  destruct (curve.SetBytes byts) as [p| |]; cbn [bind]; try done.
  rewrite IH by lia.
  by destruct (traverse decode_point (take m (drop (S k) l))).
Qed.

(** X18. If some [SetupG1] entry does not decode (bad hex or bad point),
    [CheckTrustedSetupWellFormed] returns the error of the first such
    entry, whatever the Lagrange and G2 lists hold and whatever the
    inverse FFT would do. *)
Theorem CheckTrustedSetupWellFormed_G1_error {G1 G2 : Type}
    {ops1 : curve.Ops G1} {ops2 : curve.Ops G2}
    (IfftG1 : kzg.Domain -> list G1 -> result (list G1))
    (ts : api.JSONTrustedSetup) (pre post : list string) (s : string) (e : error) :
  length (api.SetupG1 ts) = length (api.SetupG1Lagrange ts) ->
  api.SetupG1 ts = pre ++ s :: post ->
  Forall (fun s' => exists p : G1, decode_point s' = Ok p) pre ->
  decode_point (G := G1) s = Err e ->
  api.CheckTrustedSetupWellFormed (G2 := G2) IfftG1 ts = Err e.
Proof.
  intros Hlen Hsplit Hpre Hs. unfold api.CheckTrustedSetupWellFormed.
  rewrite Hlen, Nat.eqb_refl. cbn [negb].
  rewrite <- Hlen, setupG1_loop, Hsplit.
  by rewrite (traverse_app_Err _ _ _ _ e).
Qed.

Lemma CheckTrustedSetupWellFormed_G1_error_witness :
  api.CheckTrustedSetupWellFormed (ops1 := toy.ops) (ops2 := toy.ops)
    toy.IfftG1 toy.setup_badhex
  = Err (ErrHexInvalidByte "g"%char).
Proof.
  apply (CheckTrustedSetupWellFormed_G1_error (ops1 := toy.ops) toy.IfftG1
           toy.setup_badhex [toy.hex0] (replicate 4094 toy.hex1) "0g"%string).
  - reflexivity.
  - reflexivity.
  - repeat constructor. eexists. vm_compute. reflexivity.
  - vm_compute. reflexivity.
Defined.

(** X19. When the G1 entries decode and the Lagrange list matches, a
    [SetupG2] entry that does not decode makes the check return the
    error of the first such entry. *)
Theorem CheckTrustedSetupWellFormed_G2_error {G1 G2 : Type}
    {ops1 : curve.Ops G1} {ops2 : curve.Ops G2}
    (IfftG1 : kzg.Domain -> list G1 -> result (list G1))
    (ts : api.JSONTrustedSetup) :
  exists domain,
    kzg.NewDomain api.ScalarsPerBlob = Ok domain
    /\ forall (points lagrange : list G1) (pre post : list string)
              (s : string) (e : error),
        Forall2 (fun s p => decode_point s = Ok p) (api.SetupG1 ts) points ->
        IfftG1 domain points = Ok lagrange ->
        api.SetupG1Lagrange ts = encode_point <$> lagrange ->
        length (api.SetupG1 ts) = length lagrange ->
        api.SetupG2 ts = pre ++ s :: post ->
        Forall (fun s' => exists p : G2, decode_point s' = Ok p) pre ->
        decode_point (G := G2) s = Err e ->
        api.CheckTrustedSetupWellFormed (G2 := G2) IfftG1 ts = Err e.
Proof.
  destruct NewDomain_ScalarsPerBlob as (domain & Hdom & _).
  exists domain. split; [done|].
  intros points lagrange pre post s e Hdec Hifft Hlag Hlen Hsplit Hpre Hs.
  unfold api.CheckTrustedSetupWellFormed.
  rewrite Hlag at 1. rewrite length_fmap, Hlen, Nat.eqb_refl. cbn [negb].
  rewrite <- Hlen, setupG1_loop, (traverse_Forall2 _ _ points) by done.
  cbn [bind]. rewrite Hdom. cbn [bind]. rewrite Hifft. cbn [bind].
  rewrite compare_loop_ok; [|lia|done]. cbn [bind].
  rewrite (setupG2_loop_traverse (api.SetupG2 ts) _ 0) by lia.
  rewrite drop_0, firstn_all, Hsplit.
  by rewrite (traverse_app_Err _ _ _ _ e).
Qed.

Lemma toy_decode_point_hex1 : decode_point (ops := toy.ops) toy.hex1 = Ok 1.
Proof. vm_compute. reflexivity. Defined.

Lemma CheckTrustedSetupWellFormed_G2_error_witness :
  api.CheckTrustedSetupWellFormed (ops1 := toy.ops) (ops2 := toy.ops)
    toy.IfftG1 toy.setup_badG2
  = Err ErrHexLength.
Proof.
  destruct (CheckTrustedSetupWellFormed_G2_error (ops1 := toy.ops)
              (ops2 := toy.ops) toy.IfftG1 toy.setup_badG2)
    as (domain & _ & Hcheck).
  apply (Hcheck (replicate 4096 1) (replicate 4096 1) [toy.hex1] []
           "abc"%string).
  - apply Forall2_replicate. exact toy_decode_point_hex1.
  - reflexivity.
  - cbn [api.SetupG1Lagrange toy.setup_badG2].
    rewrite fmap_replicate. reflexivity.
  - cbn [api.SetupG1 toy.setup_badG2]. by rewrite !length_replicate.
  - reflexivity.
  - repeat constructor. exists 1. exact toy_decode_point_hex1.
  - vm_compute. reflexivity.
Defined.
